(** * Zarrar Image Gen: the generation pipeline and the bounded session store

    A shallow embedding of the logic of [src/index.tsx]: the error
    classifier [handleApiError], single-scene regeneration
    [handleRegenerateScene], the bulk run [generateImages], the prompt/image
    cross reference [promptImageMap] and the capacity-probing save loop of
    [handleGenerationComplete].

    React state is modelled by explicit state passing: a call
    [setX (prev => f prev)] becomes the application of [f] to the current
    value of the state. The remote services and the browser storage are
    inputs of the model (their answers are arbitrary), the control flow
    around them is the one of the source.

    Beside these, the file covers the views around them: the preview
    navigation and the buttons of [GenerateView], [sanitizeFilename] and
    the archive of [handleDownloadAll], the dashboard, the searches of
    [HistoryView] and [AssetsView], [handleDeleteSession], and
    [usePersistentState] over a model of the browser storage. *)

From Stdlib Require Import Ascii String.
From stdpp Require Import base option list gmap strings pretty sorting.

(** ** JavaScript strings

    Strings are sequences of 8-bit characters; [toLowerCase] folds the
    letters A..Z, [trim] strips the ASCII white space characters. On
    ASCII text these are the functions of the platform; where a statement
    depends on how other text is lowered, the lowering of the platform is
    a parameter of it (see [classifyRaw]) or the statement is about ASCII
    text. *)

Definition lower_ascii (c : ascii) : ascii :=
  let n := nat_of_ascii c in
  if (65 <=? n)%nat && (n <=? 90)%nat then ascii_of_nat (n + 32) else c.

Fixpoint toLowerCase (s : string) : string :=
  match s with
  | EmptyString => EmptyString
  | String c s' => String (lower_ascii c) (toLowerCase s')
  end.

(** [s.includes(needle)]: [needle] occurs in [s] at some position. *)
Fixpoint includes (s needle : string) : bool :=
  String.prefix needle s
  || match s with
     | EmptyString => false
     | String _ s' => includes s' needle
     end.

Definition is_space (c : ascii) : bool :=
  let n := nat_of_ascii c in
  ((9 <=? n)%nat && (n <=? 13)%nat) || (n =? 32)%nat.

Fixpoint trimStart (s : string) : string :=
  match s with
  | EmptyString => EmptyString
  | String c s' => if is_space c then trimStart s' else s
  end.

Fixpoint trimEnd (s : string) : string :=
  match s with
  | EmptyString => EmptyString
  | String c s' =>
      match trimEnd s' with
      | EmptyString => if is_space c then EmptyString else String c EmptyString
      | t => String c t
      end
  end.

Definition trim (s : string) : string := trimEnd (trimStart s).

(** Truthiness of a string ([""] is falsy) and of a [string | null]. *)
Definition truthy (s : string) : bool :=
  match s with EmptyString => false | String _ _ => true end.

Definition truthy_opt (o : option string) : bool :=
  match o with Some s => truthy s | None => false end.

(** ** Type definitions *)

Record Scene := mkScene {
  scene_id : nat;
  scene_prompt : string;
  scene_image : option string;
  scene_isLoading : bool;
  scene_error : option string
}.

Record PromptEntry := mkPromptEntry {
  entry_id : string;
  entry_text : string;
  entry_timestamp : string
}.

Record Session := mkSession {
  session_id : string;
  session_timestamp : string;
  session_script : string;
  session_scenes : list Scene
}.

Inductive MessageType := MsgError | MsgInfo | MsgSuccess.

Record GlobalMessage := mkMessage {
  msg_text : string;
  msg_type : MessageType
}.

(** A thrown value, as far as the handlers read it. What the services,
    [JSON.parse] and the storage throw are objects; their [name] and
    [message] are strings and their [code] a number, each possibly
    undefined. Other thrown values are the [RawFailure]s below. *)
Record Exception := mkException {
  exn_name : option string;
  exn_message : option string;
  exn_code : option Z
}.

(** The result of awaiting a service call. *)
Inductive Outcome (A : Type) : Type :=
  | Resolved (a : A)
  | Rejected (e : Exception).
Arguments Resolved {A} a.
Arguments Rejected {A} e.

(** ** ErrorClassifier: [handleApiError] *)

Inductive ErrorKind := InvalidCredential | QuotaExceeded | Transient.

(** [e.message?.toLowerCase() || ''] *)
Definition lowered_message (e : Exception) : string :=
  match exn_message e with
  | Some m => toLowerCase m
  | None => ""
  end.

(** The branch [handleApiError] takes. *)
Definition classify (e : Exception) : ErrorKind :=
  let message := lowered_message e in
  if includes message "permission denied" || includes message "api key not valid"
  then InvalidCredential
  else if includes message "quota" then QuotaExceeded
  else Transient.

(** [`${e.message}`] *)
Definition show_message (e : Exception) : string :=
  match exn_message e with Some m => m | None => "undefined" end.

Definition userMessage (e : Exception) : string :=
  match classify e with
  | InvalidCredential => "The configured API key is invalid or has been blocked."
  | QuotaExceeded => "The API key has exceeded its quota."
  | Transient => "An API error occurred: " +:+ show_message e
  end.

(** [handleApiError e]: the value handed to [setGlobalMessage]. *)
Definition handleApiError (e : Exception) : GlobalMessage :=
  mkMessage (userMessage e) MsgError.

(** ** External services

    [generateContent] on the reference image yields the style description
    ([describeResponse.text]); the decomposition request followed by
    [JSON.parse] yields the parsed prompts; [generateImages] yields an
    image response. Each may reject. The image service is indexed by the
    number of image requests the run has issued before, so that two
    requests with the same prompt may be answered differently. *)

Record File := mkFile { file_name : string }.

Inductive ParsedPrompts :=
  | NotAnArray
  | PromptArray (promptTexts : list string).

Record GeneratedImage := mkGeneratedImage {
  (** [.image], and its [imageBytes] when present *)
  generated_image : option string
}.

Record ImageResponse := mkImageResponse {
  generatedImages : option (list GeneratedImage)
}.

Record Services := mkServices {
  describeStyle : File -> Outcome string;
  generatePrompts : Outcome ParsedPrompts;
  generateImage : nat -> string -> Outcome ImageResponse;
  (** the n-th reading of [new Date().toISOString()] *)
  now : nat -> string
}.

(** [generatedImages && generatedImages.length > 0 && generatedImages[0].image] *)
Definition firstImage (r : ImageResponse) : option string :=
  match generatedImages r with
  | Some (g :: _) => generated_image g
  | _ => None
  end.

Definition dataUrl (imageBytes : string) : string :=
  "data:image/jpeg;base64," +:+ imageBytes.

Definition dquote : string := String (ascii_of_nat 34) EmptyString.

Definition fullPrompt (prompt combinedStyle : string) : string :=
  "An image of " +:+ dquote +:+ prompt +:+ dquote +:+ " in the style of "
  +:+ dquote +:+ combinedStyle +:+ dquote +:+ ". 4k quality.".

(** ** Workspace state of [GenerateView] *)

Record Ui := mkUi {
  scenes : list Scene;
  isGenerating : bool;
  globalMessage : option GlobalMessage
}.

Definition setScenes (f : list Scene -> list Scene) (ui : Ui) : Ui :=
  mkUi (f (scenes ui)) (isGenerating ui) (globalMessage ui).

Definition setIsGenerating (b : bool) (ui : Ui) : Ui :=
  mkUi (scenes ui) b (globalMessage ui).

Definition setGlobalMessage (m : option GlobalMessage) (ui : Ui) : Ui :=
  mkUi (scenes ui) (isGenerating ui) m.

(** [{ ...s, isLoading: l, error: e }] *)
Definition withLoadingError (l : bool) (e : option string) (s : Scene) : Scene :=
  mkScene (scene_id s) (scene_prompt s) (scene_image s) l e.

(** [{ ...s, image: i, isLoading: false, error: e }] *)
Definition withResult (i e : option string) (s : Scene) : Scene :=
  mkScene (scene_id s) (scene_prompt s) i false e.

(** [prev.map(s => s.id === sceneId ? f s : s)] *)
Definition mapScene (sceneId : nat) (f : Scene -> Scene) (prev : list Scene) : list Scene :=
  map (fun s => if decide (scene_id s = sceneId) then f s else s) prev.

(** The style of a request: the trimmed keywords, preceded by the
    description of the reference image when there is one. *)
Definition resolveStyle (svc : Services) (style : string)
    (referenceImage : option File) : Outcome string :=
  match referenceImage with
  | None => Resolved (trim style)
  | Some file =>
      match describeStyle svc file with
      | Resolved text => Resolved (trim (text +:+ " " +:+ style))
      | Rejected e => Rejected e
      end
  end.

(** ** Independent regeneration: [handleRegenerateScene] *)

Definition handleRegenerateScene (svc : Services) (apiKey : option string)
    (style : string) (referenceImage : option File)
    (sceneId : nat) (ui : Ui) : Ui :=
  match List.find (fun s => bool_decide (scene_id s = sceneId)) (scenes ui) with
  | None => ui
  | Some sceneToRegenerate =>
      if negb (truthy_opt apiKey) then
        setGlobalMessage (Some (mkMessage "API key is not configured." MsgError)) ui
      else
        let ui := setScenes (mapScene sceneId (withLoadingError true None)) ui in
        match resolveStyle svc style referenceImage with
        | Rejected e =>
            let ui := setGlobalMessage (Some (handleApiError e)) ui in
            setScenes (mapScene sceneId (withLoadingError false (Some "Ref image error."))) ui
        | Resolved combinedStyle =>
            match generateImage svc 0 (fullPrompt (scene_prompt sceneToRegenerate) combinedStyle) with
            | Resolved imageResponse =>
                match firstImage imageResponse with
                | Some imageBytes =>
                    let updatedScene :=
                      withResult (Some (dataUrl imageBytes)) None sceneToRegenerate in
                    setScenes (mapScene sceneId (fun _ => updatedScene)) ui
                | None =>
                    setScenes (mapScene sceneId
                      (withLoadingError false (Some "Regeneration blocked or failed."))) ui
                end
            | Rejected e =>
                let ui := setGlobalMessage (Some (handleApiError e)) ui in
                setScenes (mapScene sceneId (withLoadingError false (Some "API Error."))) ui
            end
        end
  end.

(** ** The bulk run: [generateImages] *)

(** What a run has done so far: the workspace state, the local
    [finalScenes], and the prompts sent to the image service, in order. *)
Record Run := mkRun {
  run_ui : Ui;
  finalScenes : list Scene;
  imageCalls : list string
}.

(** [{ ...s, isLoading: false, error: s.isLoading ? finalError : s.error }] *)
Definition stopScene (finalError : string) (s : Scene) : Scene :=
  withLoadingError false
    (if scene_isLoading s then Some finalError else scene_error s) s.

(** The scene pushed to [finalScenes] for an answered request:
    [{ ...scene, image: imageUrl, isLoading: false, error: finalError }] *)
Definition resolved (imageResponse : ImageResponse) (scene : Scene) : Scene :=
  match firstImage imageResponse with
  | Some imageBytes => withResult (Some (dataUrl imageBytes)) None scene
  | None => withResult None (Some "Generation blocked or failed.") scene
  end.

(** Step 2 of the source, [for (const scene of newScenes)]. A rejected
    request ends the loop (the [return] of the handler); the [finally]
    block is applied by [generateImages]. *)
Fixpoint synthesisLoop (svc : Services) (combinedStyle : string)
    (newScenes : list Scene) (r : Run) : Run :=
  match newScenes with
  | [] => r
  | scene :: rest =>
      let request := fullPrompt (scene_prompt scene) combinedStyle in
      let calls := imageCalls r ++ [request] in
      match generateImage svc (length (imageCalls r)) request with
      | Rejected e =>
          let ui := setGlobalMessage (Some (handleApiError e)) (run_ui r) in
          let ui := setScenes (map (stopScene "API Error.")) ui in
          mkRun (setIsGenerating false ui) (finalScenes r) calls
      | Resolved imageResponse =>
          let updatedScene := resolved imageResponse scene in
          synthesisLoop svc combinedStyle rest
            (mkRun (setScenes (mapScene (scene_id scene) (fun _ => updatedScene)) (run_ui r))
                   (finalScenes r ++ [updatedScene]) calls)
      end
  end.

(** A scene as it is created from its prompt:
    [{ id: index, prompt: p, image: null, isLoading: true, error: null }] *)
Definition fresh (index : nat) (p : string) : Scene :=
  mkScene index p None true None.

(** [promptTexts.map((p, index) => ...)] *)
Definition materialize (promptTexts : list string) : list Scene :=
  imap fresh promptTexts.

(** [s.error || fallback] *)
Definition errorOr (fallback : string) (s : Scene) : option string :=
  if truthy_opt (scene_error s) then scene_error s else Some fallback.

(** The outcome of a call of [generateImages]: the workspace state it
    leaves, the image requests it issued, and the session it passed to
    [onGenerationComplete], if it called it. *)
Record RunResult := mkRunResult {
  res_ui : Ui;
  res_calls : list string;
  res_session : option Session
}.

(** The body of the [try] block with its [catch]. *)
Definition generateImagesBody (svc : Services) (style : string)
    (referenceImage : option File) (ui : Ui) : Run :=
  match resolveStyle svc style referenceImage with
  | Rejected e =>
      mkRun (setIsGenerating false (setGlobalMessage (Some (handleApiError e)) ui)) [] []
  | Resolved combinedStyle =>
      match generatePrompts svc with
      | Rejected e =>
          mkRun (setIsGenerating false (setGlobalMessage (Some (handleApiError e)) ui)) [] []
      | Resolved (PromptArray (p :: ps)) =>
          let newScenes := materialize (p :: ps) in
          synthesisLoop svc combinedStyle newScenes
            (mkRun (setScenes (fun _ => newScenes) ui) [] [])
      | Resolved _ =>
          let text := "An error occurred: " +:+ "Could not generate any prompts from the script." in
          let ui := setGlobalMessage (Some (mkMessage text MsgError)) ui in
          let ui := setScenes (map (fun s =>
                      withLoadingError false (errorOr "Generation process failed." s) s)) ui in
          mkRun ui [] []
      end
  end.

Definition generateImages (svc : Services) (apiKey : option string)
    (script style : string) (referenceImage : option File) (ui : Ui) : RunResult :=
  if negb (truthy script) then
    mkRunResult (setGlobalMessage (Some (mkMessage "Script cannot be empty." MsgError)) ui) [] None
  else if negb (truthy_opt apiKey) then
    mkRunResult
      (setGlobalMessage (Some (mkMessage
         "API key is not configured. Please set the API_KEY environment variable." MsgError)) ui)
      [] None
  else
    let ui := setIsGenerating true ui in
    let ui := setGlobalMessage None ui in
    let ui := setScenes (fun _ => []) ui in
    let r := generateImagesBody svc style referenceImage ui in
    (* finally *)
    mkRunResult (setIsGenerating false (run_ui r)) (imageCalls r)
      (if existsb (fun s => truthy_opt (scene_image s)) (finalScenes r) then
         Some (mkSession (now svc 0) (now svc 1) script
                 (filter (fun s => scene_isLoading s = false) (finalScenes r)))
       else None).

(** The per-scene states of the specification, read off the fields of a
    scene as the view does ([isLoading] shows the loader, [error] the
    error overlay, [image] the picture). *)
Inductive Status := Pending | Loading | Succeeded | Failed.

Definition status (s : Scene) : Status :=
  if scene_isLoading s then Loading
  else if truthy_opt (scene_error s) then Failed
  else if truthy_opt (scene_image s) then Succeeded
  else Pending.

(** ** PromptHistoryIndex: [promptImageMap] of [HistoryView] *)

(** One step of the inner loop:
    [if (scene.image && !map.has(scene.prompt)) map.set(scene.prompt, scene.image)] *)
Definition recordScene (map : gmap string string) (scene : Scene) : gmap string string :=
  match scene_image scene with
  | Some image =>
      if truthy image && negb (bool_decide (is_Some (map !! scene_prompt scene)))
      then <[scene_prompt scene := image]> map
      else map
  | None => map
  end.

Definition promptImageMap (sessions : list Session) : gmap string string :=
  foldl (fun map session => foldl recordScene map (session_scenes session)) ∅ sessions.

(** [promptImageMap.get(text)] *)
Definition imageFor (sessions : list Session) (text : string) : option string :=
  promptImageMap sessions !! text.

(** The specification's reading: the scenes of all sessions in store
    order, and the image of the first of them with the given prompt and
    an image that is not null. *)
Definition scenesInStoreOrder (sessions : list Session) : list Scene :=
  concat (map session_scenes sessions).

Definition firstWrite (text : string) (all : list Scene) : option string :=
  match List.find (fun s => bool_decide (scene_prompt s = text)
                            && bool_decide (is_Some (scene_image s))) all with
  | Some s => scene_image s
  | None => None
  end.

(** Every image held by a stored scene is a non-empty string. *)
Definition imagesNonEmpty (sessions : list Session) : Prop :=
  Forall (fun s => scene_image s <> Some EmptyString) (scenesInStoreOrder sessions).

(** ** BoundedSessionStore and SessionAssembler: [handleGenerationComplete] *)

Record App := mkApp {
  sessions : list Session;
  promptHistory : list PromptEntry;
  workspace : Ui
}.

(** The dry run of the source,
    [localStorage.setItem('zarrar-sessions-check', JSON.stringify(sessionsToSave));
     localStorage.removeItem('zarrar-sessions-check')]:
    [None] when it completes, [Some e] when it throws [e]. *)
Definition Probe := list Session -> option Exception.

(** [e.name === 'QuotaExceededError' || (e.code && (e.code === 22 || e.code === 1014))] *)
Definition isQuotaExceeded (e : Exception) : bool :=
  bool_decide (exn_name e = Some "QuotaExceededError")
  || match exn_code e with
     | Some c => negb (c =? 0)%Z && ((c =? 22)%Z || (c =? 1014)%Z)
     | None => false
     end.

(** The [while (!saveSuccessful)] loop: [Some l] when it is left with
    [sessionsToSave = l], [None] when the handler returns from inside it.
    [sessionsToSave.shift()] is the [tail] of the list. *)
Fixpoint saveLoop (probe : Probe) (sessionsToSave : list Session) : option (list Session) :=
  match probe sessionsToSave with
  | None => Some sessionsToSave
  | Some e =>
      if isQuotaExceeded e && bool_decide (1 < length sessionsToSave) then
        match sessionsToSave with
        | [] => None
        | _ :: rest => saveLoop probe rest
        end
      else None
  end.

Definition newPrompts (newSession : Session) : list PromptEntry :=
  map (fun s => mkPromptEntry (session_id newSession +:+ "-" +:+ pretty (scene_id s))
                              (scene_prompt s) (session_timestamp newSession))
      (filter (fun s => truthy (scene_prompt s)) (session_scenes newSession)).

Definition storageFull : GlobalMessage :=
  mkMessage "Storage is full. Could not save session. Please clear some assets." MsgError.

Definition handleGenerationComplete (probe : Probe) (newSession : Session) (app : App) : App :=
  let history := (promptHistory app ++ newPrompts newSession)%list in
  match saveLoop probe (sessions app ++ [newSession])%list with
  | Some sessionsToSave => mkApp sessionsToSave history (workspace app)
  | None =>
      mkApp (sessions app) history (setGlobalMessage (Some storageFull) (workspace app))
  end.

(** [append] fails: the handler leaves the save loop by its [return]. *)
Definition appendFails (probe : Probe) (newSession : Session) (app : App) : Prop :=
  saveLoop probe (sessions app ++ [newSession])%list = None.

(** A run of [generateImages] in [App], with [handleGenerationComplete]
    as its [onGenerationComplete]. *)
Definition runPipeline (svc : Services) (probe : Probe) (apiKey : option string)
    (script style : string) (referenceImage : option File) (app : App) : App :=
  let r := generateImages svc apiKey script style referenceImage (workspace app) in
  let app := mkApp (sessions app) (promptHistory app) (res_ui r) in
  match res_session r with
  | Some s => handleGenerationComplete probe s app
  | None => app
  end.

(** ** Preview of [GenerateView]

    [previewIndex] is a number or null. A number is an integer or NaN
    (the remainder by an empty list's length). *)

Inductive JsNumber := Finite (z : Z) | NaN.

(** [s.image && !s.error] *)
Definition previewable (s : Scene) : bool :=
  truthy_opt (scene_image s) && negb (truthy_opt (scene_error s)).

Definition previewableScenes (all : list Scene) : list Scene :=
  filter (fun s => previewable s) all.

(** [previewableScenes.findIndex(s => s.id === sceneId)], and
    [setPreviewIndex(index)] unless it is -1. *)
Definition handleOpenPreview (all : list Scene) (sceneId : nat)
    (previewIndex : option JsNumber) : option JsNumber :=
  match list_find (fun s => scene_id s = sceneId) (previewableScenes all) with
  | Some (index, _) => Some (Finite (Z.of_nat index))
  | None => previewIndex
  end.

(** [prev || 0] *)
Definition orZero (prev : JsNumber) : Z :=
  match prev with Finite z => z | NaN => 0%Z end.

(** [prev === 0 ? previewableScenes.length - 1 : (prev || 0) - 1] *)
Definition handlePrevImage (all : list Scene) (previewIndex : option JsNumber)
    : option JsNumber :=
  match previewIndex with
  | None => None
  | Some prev =>
      Some (match prev with
            | Finite 0 => Finite (Z.of_nat (length (previewableScenes all)) - 1)
            | _ => Finite (orZero prev - 1)
            end)
  end.

(** [((prev || 0) + 1) % previewableScenes.length] *)
Definition handleNextImage (all : list Scene) (previewIndex : option JsNumber)
    : option JsNumber :=
  match previewIndex with
  | None => None
  | Some prev =>
      Some (match length (previewableScenes all) with
            | 0 => NaN
            | S _ as len => Finite (Z.rem (orZero prev + 1) (Z.of_nat len))
            end)
  end.

(** [previewIndex !== null ? previewableScenes[previewIndex] : null] *)
Definition currentPreviewScene (all : list Scene) (previewIndex : option JsNumber)
    : option Scene :=
  match previewIndex with
  | Some (Finite z) =>
      if (0 <=? z)%Z then previewableScenes all !! Z.to_nat z else None
  | _ => None
  end.

(** ** The buttons of [GenerateView] *)

(** [!isGenerating && scenes.length > 0 && scenes.some(s => s.image)] *)
Definition showDownloadAll (ui : Ui) : bool :=
  negb (isGenerating ui)
  && bool_decide (0 < length (scenes ui))
  && existsb (fun s => truthy_opt (scene_image s)) (scenes ui).

(** [(scene.error || !scene.image) && !scene.isLoading] *)
Definition showRegenerate (s : Scene) : bool :=
  (truthy_opt (scene_error s) || negb (truthy_opt (scene_image s)))
  && negb (scene_isLoading s).

(** ** Download: [sanitizeFilename] and [handleDownloadAll] *)

(** [.replace(/\s+/g, '_')]: each run of white space (the ASCII white
    space of [is_space]) becomes one underscore; [inRun] tells that the
    previous character was white space. *)
Fixpoint replaceSpaces (inRun : bool) (s : string) : string :=
  match s with
  | EmptyString => EmptyString
  | String c s' =>
      if is_space c then
        if inRun then replaceSpaces true s'
        else String "_" (replaceSpaces true s')
      else String c (replaceSpaces false s')
  end.

(** The class [[a-z0-9_.-]]. *)
Definition validChar (c : ascii) : bool :=
  let n := nat_of_ascii c in
  ((97 <=? n)%nat && (n <=? 122)%nat)
  || ((48 <=? n)%nat && (n <=? 57)%nat)
  || (n =? 95)%nat || (n =? 46)%nat || (n =? 45)%nat.

(** [.replace(/[^a-z0-9_.-]/g, '')] *)
Fixpoint removeInvalid (s : string) : string :=
  match s with
  | EmptyString => EmptyString
  | String c s' =>
      if validChar c then String c (removeInvalid s') else removeInvalid s'
  end.

(** [.substring(0, n)] *)
Fixpoint substringFrom0 (n : nat) (s : string) : string :=
  match n, s with
  | S n', String c s' => String c (substringFrom0 n' s')
  | _, _ => EmptyString
  end.

Definition sanitizeFilename (name : string) : string :=
  substringFrom0 100 (removeInvalid (replaceSpaces false (toLowerCase name))).

Definition isComma (c : ascii) : bool := (nat_of_ascii c =? 44)%nat.

Fixpoint untilComma (s : string) : string :=
  match s with
  | EmptyString => EmptyString
  | String c s' => if isComma c then EmptyString else String c (untilComma s')
  end.

Fixpoint afterComma (s : string) : option string :=
  match s with
  | EmptyString => None
  | String c s' => if isComma c then Some s' else afterComma s'
  end.

(** [image.split(',')[1]]: what stands between the first comma and the
    next one, undefined when there is no comma. *)
Definition base64Data (image : string) : option string :=
  untilComma <$> afterComma image.

(** [`scene_${scene.id + 1}_${sanitizeFilename(scene.prompt)}.jpeg`], for
    ids whose successor a number holds exactly (below 2^53), as the array
    indices the pipeline assigns are. *)
Definition zipFilename (scene : Scene) : string :=
  "scene_" +:+ pretty (scene_id scene + 1) +:+ "_"
  +:+ sanitizeFilename (scene_prompt scene) +:+ ".jpeg".

(** [zip.file(filename, base64Data, { base64: true })] for a scene with an
    image: the archive maps file names to their data, a name added twice
    keeps the later data. *)
Definition zipScene (zip : gmap string (option string)) (scene : Scene)
    : gmap string (option string) :=
  match scene_image scene with
  | Some image =>
      if truthy image then <[zipFilename scene := base64Data image]> zip else zip
  | None => zip
  end.

(** The archive [handleDownloadAll] builds:
    [scenes.filter(s => s.image).forEach(scene => ...)]. *)
Definition zipFiles (all : list Scene) : gmap string (option string) :=
  foldl zipScene ∅ (filter (fun s => truthy_opt (scene_image s)) all).

(** ** [DashboardView] *)

(** [sessions.slice(-3).reverse()] *)
Definition recentSessions (l : list Session) : list Session :=
  reverse (drop (length l - 3) l).

(** [sessions.reduce((acc, s) => acc + s.scenes.filter(scene => scene.image).length, 0)] *)
Definition totalImages (l : list Session) : nat :=
  foldl (fun acc s =>
           acc + length (filter (fun scene => truthy_opt (scene_image scene))
                           (session_scenes s))) 0 l.

(** ** Vocabulary of the statements *)

(** The ways a regeneration attempt of a prompt can end. *)
Inductive Attempt :=
  | ReferenceFailed (e : Exception)
  | SynthesisFailed (e : Exception)
  | BlockedOrEmpty
  | Produced (imageBytes : string).

Definition attempt (svc : Services) (style : string) (referenceImage : option File)
    (prompt : string) : Attempt :=
  match resolveStyle svc style referenceImage with
  | Rejected e => ReferenceFailed e
  | Resolved combinedStyle =>
      match generateImage svc 0 (fullPrompt prompt combinedStyle) with
      | Rejected e => SynthesisFailed e
      | Resolved imageResponse =>
          match firstImage imageResponse with
          | Some imageBytes => Produced imageBytes
          | None => BlockedOrEmpty
          end
      end
  end.

(** [f] applied to the elements of a list with their positions, counted
    from [n]. *)
Fixpoint mapFrom {A B : Type} (f : nat -> A -> B) (n : nat) (l : list A) : list B :=
  match l with
  | [] => []
  | x :: l' => f n x :: mapFrom f (S n) l'
  end.

(** The request sent for a prompt, and the scene a hard failure leaves
    for a prompt that was not resolved. *)
Definition requestFor (combinedStyle : string) (index : nat) (p : string) : string :=
  fullPrompt p combinedStyle.

Definition stopped (index : nat) (p : string) : Scene :=
  mkScene index p None false (Some "API Error.").

(** The scene the loop leaves for the prompt at [index] when it gets to
    it: resolved from the answer, or stopped when the request is rejected. *)
Definition settled (svc : Services) (combinedStyle : string)
    (index : nat) (p : string) : Scene :=
  match generateImage svc index (fullPrompt p combinedStyle) with
  | Resolved imageResponse => resolved imageResponse (fresh index p)
  | Rejected _ => stopped index p
  end.

(** The number of prompts, from position [n] on, answered before the
    first rejected request. *)
Fixpoint answeredPrefix (svc : Services) (combinedStyle : string)
    (n : nat) (ps : list string) : nat :=
  match ps with
  | [] => 0
  | p :: ps' =>
      match generateImage svc n (fullPrompt p combinedStyle) with
      | Resolved _ => S (answeredPrefix svc combinedStyle (S n) ps')
      | Rejected _ => 0
      end
  end.

(** The run gets to the synthesis loop with the style [combinedStyle] and
    the prompts [prompts]. *)
Definition reachesLoop (svc : Services) (apiKey : option string)
    (script style : string) (referenceImage : option File)
    (combinedStyle : string) (prompts : list string) : Prop :=
  truthy script = true /\ truthy_opt apiKey = true
  /\ resolveStyle svc style referenceImage = Resolved combinedStyle
  /\ generatePrompts svc = Resolved (PromptArray prompts)
  /\ prompts <> [].

(** ** Sample inputs

    A script of three prompts whose first image request is answered and
    whose second is rejected for quota; a store whose probe accepts at
    most two sessions. *)

Definition sampleImage (imageBytes : string) : ImageResponse :=
  mkImageResponse (Some [mkGeneratedImage (Some imageBytes)]).

Definition quotaFailure : Exception :=
  mkException (Some "ApiError") (Some "429 Resource exhausted: Quota exceeded") (Some 429%Z).

Definition samplePrompts : list string := ["a castle"; "a dragon"; "a knight"].

Definition sampleServices : Services :=
  mkServices
    (fun _ => Resolved "ink sketch")
    (Resolved (PromptArray samplePrompts))
    (fun n _ => match n with
                | 0 => Resolved (sampleImage "AAAA")
                | _ => Rejected quotaFailure
                end)
    (fun n => match n with
              | 0 => "2024-01-01T00:00:00.000Z"
              | _ => "2024-01-01T00:00:00.001Z"
              end).

Definition credentialFailure : Exception :=
  mkException (Some "ApiError") (Some "API key not valid. Please pass a valid API key.")
    (Some 400%Z).

(** Services whose every image request is rejected with [e]. *)
Definition rejectingWith (e : Exception) : Services :=
  mkServices (fun _ => Resolved "ink sketch") (Resolved (PromptArray samplePrompts))
    (fun _ _ => Rejected e) (fun _ => "2024-01-01T00:00:00.000Z").

Definition failingServices : Services := rejectingWith quotaFailure.

(** Services that answer the second image request without an image. *)
Definition secondBlocked : Services :=
  mkServices (fun _ => Resolved "ink sketch") (Resolved (PromptArray samplePrompts))
    (fun n _ => match n with
                | 1 => Resolved (mkImageResponse (Some []))
                | _ => Resolved (sampleImage "AAAA")
                end)
    (fun _ => "2024-01-01T00:00:00.000Z").

Definition sampleKey : option string := Some "key".

Definition emptyUi : Ui := mkUi [] false None.

Definition sampleRun : RunResult :=
  generateImages sampleServices sampleKey "Once upon a time" " watercolor " None emptyUi.

(** The candidate of [append]: [[...sessions, newSession]]. *)
Definition candidate (app : App) (newSession : Session) : list Session :=
  sessions app ++ [newSession].

(** The probe rejects, for lack of space, each of the first [k]
    candidates of the loop: the full candidate and what is left of it
    after 1, ..., [k - 1] evictions. *)
Definition evictionsNeeded (probe : Probe) (l : list Session) (k : nat) : Prop :=
  forall i, i < k ->
    exists e, probe (drop i l) = Some e /\ isQuotaExceeded e = true.

Definition storageQuotaError : Exception :=
  mkException (Some "QuotaExceededError") (Some "The quota has been exceeded.") (Some 22%Z).

(** A store with room for two sessions, and one with room for none. *)
Definition roomForTwo : Probe :=
  fun l => if decide (length l <= 2) then None else Some storageQuotaError.

Definition noRoom : Probe := fun _ => Some storageQuotaError.

Definition sessionOf (name : string) (prompt : string) (image : option string) : Session :=
  mkSession name name "script" [mkScene 0 prompt image false None].

Definition sessionA : Session := sessionOf "A" "a castle" (Some "data:image/jpeg;base64,AAAA").
Definition sessionB : Session := sessionOf "B" "a castle" (Some "data:image/jpeg;base64,BBBB").
Definition sessionC : Session := sessionOf "C" "a knight" None.

Definition sampleApp : App := mkApp [sessionA; sessionB] [] emptyUi.

(** ** Searching: [HistoryView] and [AssetsView] *)

(** [Array.prototype.sort] with a comparator: the sort is stable, so for
    a comparator that orders the elements consistently its result is the
    one arrangement that is sorted and keeps equal elements in their
    order. [insertSorted] puts [x], which stood before the elements of
    [l], behind those that the comparator places strictly before it. *)
Fixpoint insertSorted {A : Type} (compare : A -> A -> Z) (x : A) (l : list A) : list A :=
  match l with
  | [] => [x]
  | y :: l' =>
      if (0 <? compare x y)%Z then y :: insertSorted compare x l' else x :: l
  end.

Definition sortWith {A : Type} (compare : A -> A -> Z) (l : list A) : list A :=
  foldr (insertSorted compare) [] l.

(** [(a, b) => new Date(b.timestamp).getTime() - new Date(a.timestamp).getTime()],
    with [getTime] the reading of a timestamp as a time; the timestamps
    are taken to be readable dates, as the ISO texts the application
    writes are. *)
Definition newestFirst {A : Type} (getTime : string -> Z) (timestamp : A -> string)
    (a b : A) : Z :=
  (getTime (timestamp b) - getTime (timestamp a))%Z.

(** [text.toLowerCase().includes(searchTerm.toLowerCase())] *)
Definition matchesSearch (searchTerm text : string) : bool :=
  includes (toLowerCase text) (toLowerCase searchTerm).

(** [filteredHistory] of [HistoryView]. *)
Definition filteredHistory (getTime : string -> Z) (history : list PromptEntry)
    (searchTerm : string) : list PromptEntry :=
  sortWith (newestFirst getTime entry_timestamp)
    (filter (fun p => matchesSearch searchTerm (entry_text p)) history).

(** [filteredSessions] of [AssetsView]. *)
Definition filteredSessions (getTime : string -> Z) (stored : list Session)
    (searchTerm : string) : list Session :=
  sortWith (newestFirst getTime session_timestamp)
    (filter (fun s => matchesSearch searchTerm (session_script s)) stored).

(** [handleDeleteSession]: [confirmed] is the answer of [window.confirm];
    [prev.filter(s => s.id !== sessionId)]. *)
Definition handleDeleteSession (confirmed : bool) (sessionId : string)
    (stored : list Session) : list Session :=
  if confirmed then filter (fun s => session_id s <> sessionId) stored else stored.

(** ** The browser storage and [usePersistentState]

    [localStorage] maps keys to strings under a quota on the space its
    keys and values take; [setItem] throws a QuotaExceededError, and
    stores nothing, when the quota would be exceeded. *)

Record LocalStorage := mkStorage {
  items : gmap string string;
  quota : nat
}.

Definition usage (m : gmap string string) : nat :=
  map_fold (fun key value acc => String.length key + String.length value + acc) 0 m.

Definition getItem (key : string) (st : LocalStorage) : option string :=
  items st !! key.

Definition setItem (key value : string) (st : LocalStorage) : Outcome LocalStorage :=
  let m := <[key := value]> (items st) in
  if decide (usage m <= quota st) then Resolved (mkStorage m (quota st))
  else Rejected storageQuotaError.

Definition removeItem (key : string) (st : LocalStorage) : LocalStorage :=
  mkStorage (delete key (items st)) (quota st).

(** The initial state of [usePersistentState]:
    [storedValue ? JSON.parse(storedValue) : defaultValue], and
    [defaultValue] when that throws. [parse] is [JSON.parse], [None] when
    it throws. *)
Definition initialState {T : Type} (parse : string -> option T) (key : string)
    (defaultValue : T) (st : LocalStorage) : T :=
  match getItem key st with
  | Some storedValue =>
      if truthy storedValue then
        match parse storedValue with
        | Some value => value
        | None => defaultValue
        end
      else defaultValue
  | None => defaultValue
  end.

(** The effect of [usePersistentState]:
    [localStorage.setItem(key, JSON.stringify(state))], an exception
    being logged and dropped. *)
Definition persistState {T : Type} (stringify : T -> string) (key : string)
    (state : T) (st : LocalStorage) : LocalStorage :=
  match setItem key (stringify state) st with
  | Resolved st' => st'
  | Rejected _ => st
  end.

(** The dry run of [handleGenerationComplete] on the browser storage: the
    exception it throws, if any, and the storage it leaves. *)
Definition dryRun (stringify : list Session -> string) (st : LocalStorage)
    (sessionsToSave : list Session) : option Exception * LocalStorage :=
  match setItem "zarrar-sessions-check" (stringify sessionsToSave) st with
  | Resolved st' => (None, removeItem "zarrar-sessions-check" st')
  | Rejected e => (Some e, st)
  end.

Definition storageProbe (stringify : list Session -> string) (st : LocalStorage) : Probe :=
  fun sessionsToSave => fst (dryRun stringify st sessionsToSave).

(** Every character of a string satisfies [P]. *)
Fixpoint allChars (P : ascii -> bool) (s : string) : bool :=
  match s with
  | EmptyString => true
  | String c s' => P c && allChars P s'
  end.

Definition isDigit (c : ascii) : bool :=
  let n := nat_of_ascii c in (48 <=? n)%nat && (n <=? 57)%nat.

(** [a] is at least as recent as [b]. *)
Definition notOlder {A : Type} (getTime : string -> Z) (timestamp : A -> string)
    (a b : A) : Prop :=
  (getTime (timestamp b) <= getTime (timestamp a))%Z.

(** A storage of 64 characters holding a draft of the script, a text
    serialization with its reading, and a serialization of session lists
    by their ids. *)
Definition sampleStorage : LocalStorage :=
  mkStorage {[ "zarrar-script" := "sOnce" ]} 64.

Definition sampleStringify (x : string) : string := "s" +:+ x.

Definition sampleParse (stored : string) : option string :=
  match stored with
  | String _ x => Some x
  | EmptyString => None
  end.

Definition sampleSessionsStringify (l : list Session) : string :=
  foldr (fun s acc => session_id s +:+ ";" +:+ acc) "." l.

(** The image of the first scene of a list with the given prompt and a
    truthy image. *)
Definition firstTruthyImage (text : string) (all : list Scene) : option string :=
  match List.find (fun s => bool_decide (scene_prompt s = text)
                            && truthy_opt (scene_image s)) all with
  | Some s => scene_image s
  | None => None
  end.

(** ** Raw failures and matching up to case

    [handleApiError] receives whatever was thrown. What it reads of it
    is [e.message]: reading it throws when [e] is null or undefined, and
    calling [toLowerCase] on it throws when it is neither a string nor
    null or undefined. *)

Inductive RawMessage :=
  | MessageMissing
  | MessageText (text : string)
  | MessageOther.

Inductive RawFailure :=
  | ThrownNullish
  | Thrown (message : RawMessage).

(** The chain of tests of [handleApiError] on the lowered message. *)
Definition classifyLowered (message : string) : ErrorKind :=
  if includes message "permission denied" || includes message "api key not valid"
  then InvalidCredential
  else if includes message "quota" then QuotaExceeded
  else Transient.

(** The branch [handleApiError] takes on a raw failure, [None] when it
    throws a TypeError itself. [lower] is [String.prototype.toLowerCase]
    of the platform; [e.message?.toLowerCase() || ''] is the lowered text,
    or the empty text when there is none. *)
Definition classifyRaw (lower : string -> string) (e : RawFailure) : option ErrorKind :=
  match e with
  | ThrownNullish => None
  | Thrown MessageOther => None
  | Thrown MessageMissing => Some (classifyLowered EmptyString)
  | Thrown (MessageText text) =>
      let lowered := lower text in
      Some (classifyLowered (if truthy lowered then lowered else EmptyString))
  end.

(** The raw failure an [Exception] stands for. *)
Definition rawOf (e : Exception) : RawFailure :=
  Thrown (match exn_message e with
          | Some text => MessageText text
          | None => MessageMissing
          end).

(** The failure is a value whose message can be read and lowered. *)
Definition readable (e : RawFailure) : Prop :=
  match e with
  | Thrown MessageMissing | Thrown (MessageText _) => True
  | _ => False
  end.

(** The text of the message, empty when there is none. *)
Definition rawText (e : RawFailure) : string :=
  match e with
  | Thrown (MessageText text) => text
  | _ => EmptyString
  end.

(** Matching up to case is stated without the lowering of the code:
    two texts are the same up to the case of the letters A..Z when they
    are equal once these letters are put in upper case. *)
Definition upper_ascii (c : ascii) : ascii :=
  let n := nat_of_ascii c in
  if (97 <=? n)%nat && (n <=? 122)%nat then ascii_of_nat (n - 32) else c.

Fixpoint upperCase (s : string) : string :=
  match s with
  | EmptyString => EmptyString
  | String c s' => String (upper_ascii c) (upperCase s')
  end.

Definition sameIgnoringCase (a b : string) : Prop := upperCase a = upperCase b.

(** [needle] occurs in [msg] up to the case of the letters. *)
Definition occursIgnoringCase (needle msg : string) : Prop :=
  exists pre w post : string,
    msg = pre +:+ w +:+ post /\ sameIgnoringCase w needle.

Definition isAsciiChar (c : ascii) : bool := (nat_of_ascii c <? 128)%nat.

Definition isAscii (s : string) : bool := allChars isAsciiChar s.

(** What is assumed of the lowering of the platform: an ASCII stretch of
    a text is lowered letter by letter, A..Z to a..z, wherever it stands;
    in particular an ASCII text is lowered as [toLowerCase] lowers it. *)
Definition foldsAscii (lower : string -> string) : Prop :=
  forall pre w post : string,
    isAscii w = true ->
    exists p q : string,
      lower (pre +:+ w +:+ post) = p +:+ toLowerCase w +:+ q
      /\ (pre = EmptyString -> p = EmptyString)
      /\ (post = EmptyString -> q = EmptyString).

(** * Properties *)

(** ** Strings *)

Lemma append_cons (c : ascii) (a b : string) :
  String c a +:+ b = String c (a +:+ b).
Proof. reflexivity. Qed.

Lemma prefix_true_iff (n s : string) :
  String.prefix n s = true <-> exists post, s = n +:+ post.
Proof.
  revert s. induction n as [|c n IH]; intros s; simpl.
  - split; [intros _; exists s; reflexivity | intros _; by destruct s].
  - destruct s as [|d s]; simpl.
    + split; [done | intros [post H]; discriminate].
    + destruct (Ascii.ascii_dec c d) as [->|Hne].
      * rewrite IH. split; intros [post H]; exists post;
          rewrite append_cons in *; congruence.
      * split; [done | intros [post H]; rewrite append_cons in H; congruence].
Qed.

Lemma includes_true_iff (s n : string) :
  includes s n = true <-> exists pre post, s = pre +:+ n +:+ post.
Proof.
  induction s as [|c s IH]; cbn [includes].
  - rewrite orb_false_r, prefix_true_iff. split.
    + intros [post H]. by exists EmptyString, post.
    + intros [pre [post H]]. destruct pre; [by exists post | discriminate].
  - rewrite orb_true_iff, prefix_true_iff, IH. split.
    + intros [[post H] | [pre [post H]]].
      * by exists EmptyString, post.
      * exists (String c pre), post. rewrite append_cons. by f_equal.
    + intros [[|d pre] [post H]].
      * left. by exists post.
      * right. exists pre, post. rewrite append_cons in H. congruence.
Qed.

Lemma toLowerCase_app (a b : string) :
  toLowerCase (a +:+ b) = toLowerCase a +:+ toLowerCase b.
Proof. induction a as [|c a IH]; simpl; [done | by rewrite IH]. Qed.

Lemma toLowerCase_split (m a b : string) :
  toLowerCase m = a +:+ b ->
  exists m1 m2, m = m1 +:+ m2 /\ toLowerCase m1 = a /\ toLowerCase m2 = b.
Proof.
  revert m. induction a as [|c a IH]; intros m H; simpl in H.
  - by exists EmptyString, m.
  - destruct m as [|d m]; simpl in H; [discriminate|].
    injection H as Hc H. destruct (IH m H) as (m1 & m2 & -> & H1 & H2).
    exists (String d m1), m2. simpl. by rewrite Hc, H1.
Qed.

Lemma append_nil_r (s : string) : s +:+ EmptyString = s.
Proof. induction s as [|c s IH]; [done|]. by rewrite append_cons, IH. Qed.

Lemma upper_lower_char (c : ascii) : upper_ascii (lower_ascii c) = upper_ascii c.
Proof. destruct c as [[] [] [] [] [] [] [] []]; reflexivity. Qed.

Lemma lower_upper_char (c : ascii) : lower_ascii (upper_ascii c) = lower_ascii c.
Proof. destruct c as [[] [] [] [] [] [] [] []]; reflexivity. Qed.

Lemma isAscii_upper_char (c : ascii) : isAsciiChar (upper_ascii c) = isAsciiChar c.
Proof. destruct c as [[] [] [] [] [] [] [] []]; reflexivity. Qed.

Lemma upperCase_toLowerCase (s : string) : upperCase (toLowerCase s) = upperCase s.
Proof. induction s as [|c s IH]; simpl; [done | by rewrite upper_lower_char, IH]. Qed.

Lemma toLowerCase_upperCase (s : string) : toLowerCase (upperCase s) = toLowerCase s.
Proof. induction s as [|c s IH]; simpl; [done | by rewrite lower_upper_char, IH]. Qed.

(** For a needle in lower case, being the same up to case is being
    lowered to the needle. *)
Lemma sameIgnoringCase_lowered (w needle : string) :
  toLowerCase needle = needle ->
  sameIgnoringCase w needle <-> toLowerCase w = needle.
Proof.
  intros Hlow. unfold sameIgnoringCase. split; intros H.
  - by rewrite <- (toLowerCase_upperCase w), H, toLowerCase_upperCase.
  - by rewrite <- (upperCase_toLowerCase w), H.
Qed.

Lemma sameIgnoringCase_ascii (w needle : string) :
  isAscii needle = true -> sameIgnoringCase w needle -> isAscii w = true.
Proof.
  unfold sameIgnoringCase, isAscii.
  revert needle. induction w as [|c w IH]; intros [|d needle] Hn H; simpl in *; try done.
  injection H as Hc H. apply andb_true_iff in Hn as [Hd Hn].
  rewrite <- (isAscii_upper_char c), Hc, isAscii_upper_char, Hd. simpl. by eapply IH.
Qed.

(** [includes], applied to the lowered message and a lower-case needle, is
    the occurrence of the needle up to case. *)
Lemma includes_lowered_iff (needle msg : string) :
  toLowerCase needle = needle ->
  includes (toLowerCase msg) needle = true <-> occursIgnoringCase needle msg.
Proof.
  intros Hlow. rewrite includes_true_iff. unfold occursIgnoringCase. split.
  - intros (pre & post & H).
    apply toLowerCase_split in H as (m1 & m23 & -> & H1 & H).
    apply toLowerCase_split in H as (m2 & m3 & -> & H2 & H3).
    exists m1, m2, m3. split; [done|]. by apply sameIgnoringCase_lowered.
  - intros (pre & w & post & -> & H). apply sameIgnoringCase_lowered in H; [|done].
    exists (toLowerCase pre), (toLowerCase post).
    by rewrite !toLowerCase_app, H.
Qed.

Lemma toLowerCase_foldsAscii : foldsAscii toLowerCase.
Proof.
  intros pre w post _. exists (toLowerCase pre), (toLowerCase post).
  rewrite !toLowerCase_app. by split_and!; [|intros ->..].
Qed.

Lemma foldsAscii_text (lower : string -> string) (msg : string) :
  foldsAscii lower -> isAscii msg = true -> lower msg = toLowerCase msg.
Proof.
  intros Hfold Hmsg.
  destruct (Hfold EmptyString msg EmptyString Hmsg) as (p & q & H & Hp & Hq).
  rewrite (Hp eq_refl), (Hq eq_refl) in H.
  by rewrite !append_nil_r in H.
Qed.

(** A needle occurring up to case is found in the lowered message,
    whatever else the message holds. *)
Lemma occurs_lowered (lower : string -> string) (needle msg : string) :
  foldsAscii lower -> toLowerCase needle = needle -> isAscii needle = true ->
  occursIgnoringCase needle msg -> includes (lower msg) needle = true.
Proof.
  intros Hfold Hlow Hascii (pre & w & post & -> & Hw).
  destruct (Hfold pre w post (sameIgnoringCase_ascii _ _ Hascii Hw)) as (p & q & -> & _).
  apply sameIgnoringCase_lowered in Hw as ->; [|done].
  apply includes_true_iff. by exists p, q.
Qed.

Lemma classifyRaw_readable (lower : string -> string) (e : RawFailure) :
  foldsAscii lower -> readable e ->
  classifyRaw lower e = Some (classifyLowered (lower (rawText e))).
Proof.
  intros Hfold Hr. destruct e as [|[|text|]]; try done; simpl.
  - by rewrite (foldsAscii_text lower EmptyString Hfold eq_refl).
  - by destruct (lower text).
Qed.

(** The classifier of the pipeline is the raw one on the failures the
    services throw. *)
Lemma classify_rawOf (e : Exception) :
  classifyRaw toLowerCase (rawOf e) = Some (classify e).
Proof.
  unfold rawOf, classify, lowered_message, classifyLowered.
  destruct (exn_message e) as [text|]; simpl; [|done]. by destruct (toLowerCase text).
Qed.

(** ** ErrorClassifier *)

(** C8, as the code has it: on a failure that is not null or undefined
    and whose message is missing or a text, classification does not fail
    and is decided by the tests on the lowered message. A message that
    holds "permission denied" or "api key not valid" in any mix of upper
    and lower case is InvalidCredential; on an ASCII message the decision
    is exactly by case-insensitive substring match: one of these two
    gives InvalidCredential, otherwise "quota" gives QuotaExceeded,
    otherwise Transient; a failure without message is Transient. *)
Theorem classifyRaw_by_case_insensitive_match (lower : string -> string) (e : RawFailure) :
  foldsAscii lower ->
  readable e ->
  let msg := rawText e in
  exists kind,
    classifyRaw lower e = Some kind
    /\ kind = classifyLowered (lower msg)
    /\ (occursIgnoringCase "permission denied" msg
        \/ occursIgnoringCase "api key not valid" msg -> kind = InvalidCredential)
    /\ (occursIgnoringCase "quota" msg -> kind = InvalidCredential \/ kind = QuotaExceeded)
    /\ (isAscii msg = true ->
        (kind = InvalidCredential
         /\ (occursIgnoringCase "permission denied" msg
             \/ occursIgnoringCase "api key not valid" msg))
        \/ (kind = QuotaExceeded
            /\ ~ occursIgnoringCase "permission denied" msg
            /\ ~ occursIgnoringCase "api key not valid" msg
            /\ occursIgnoringCase "quota" msg)
        \/ (kind = Transient
            /\ ~ occursIgnoringCase "permission denied" msg
            /\ ~ occursIgnoringCase "api key not valid" msg
            /\ ~ occursIgnoringCase "quota" msg))
    /\ (e = Thrown MessageMissing -> kind = Transient).
Proof.
  intros Hfold Hr msg. exists (classifyLowered (lower msg)).
  split; [by apply classifyRaw_readable|]. split; [done|].
  pose proof (occurs_lowered lower "permission denied" msg Hfold eq_refl eq_refl) as Hp.
  pose proof (occurs_lowered lower "api key not valid" msg Hfold eq_refl eq_refl) as Hk.
  pose proof (occurs_lowered lower "quota" msg Hfold eq_refl eq_refl) as Hq.
  unfold classifyLowered. split_and!.
  - intros [H|H]; [rewrite (Hp H) | rewrite (Hk H), orb_true_r]; done.
  - intros H. rewrite (Hq H). destruct (_ || _); [by left | by right].
  - intros Hascii. rewrite (foldsAscii_text lower msg Hfold Hascii).
    pose proof (includes_lowered_iff "permission denied" msg eq_refl) as Ip.
    pose proof (includes_lowered_iff "api key not valid" msg eq_refl) as Ik.
    pose proof (includes_lowered_iff "quota" msg eq_refl) as Iq.
    destruct (includes (toLowerCase msg) "permission denied") eqn:Ep; simpl.
    { left. split; [done|]. left. by apply Ip. }
    destruct (includes (toLowerCase msg) "api key not valid") eqn:Ek; simpl.
    { left. split; [done|]. right. by apply Ik. }
    assert (~ occursIgnoringCase "permission denied" msg) as Np
      by (intros H; apply Ip in H; discriminate).
    assert (~ occursIgnoringCase "api key not valid" msg) as Nk
      by (intros H; apply Ik in H; discriminate).
    destruct (includes (toLowerCase msg) "quota") eqn:Eq.
    { right; left. split_and!; try done. by apply Iq. }
    right; right. split_and!; try done.
    intros H; apply Iq in H; discriminate.
  - intros ->. unfold msg. simpl.
    by rewrite (foldsAscii_text lower EmptyString Hfold eq_refl).
Qed.

Lemma classifyRaw_witness :
  classifyRaw toLowerCase (Thrown (MessageText "403: PERMISSION Denied, Quota left"))
  = Some InvalidCredential.
Proof.
  destruct (classifyRaw_by_case_insensitive_match toLowerCase
              (Thrown (MessageText "403: PERMISSION Denied, Quota left"))
              toLowerCase_foldsAscii I) as (kind & Hkind & -> & _).
  exact Hkind.
Defined.

(** Classification is not total on every thrown value: on null or
    undefined, and on a message that is neither a text nor missing, the
    handler throws instead of classifying. *)
Lemma classifyRaw_throws :
  classifyRaw toLowerCase ThrownNullish = None
  /\ classifyRaw toLowerCase (Thrown MessageOther) = None
  /\ classifyRaw toLowerCase (Thrown MessageMissing) = Some Transient.
Proof. split_and!; reflexivity. Qed.

Example classify_no_message :
  classify (mkException (Some "Error") None None) = Transient.
Proof. reflexivity. Qed.

Example classify_mixed_case :
  classify (mkException None (Some "403: PERMISSION Denied for key") None) = InvalidCredential
  /\ classify (mkException None (Some "Quota exceeded; API key not valid") None) = InvalidCredential
  /\ classify (mkException None (Some "Daily QUOTA reached") None) = QuotaExceeded
  /\ classify (mkException None (Some "socket hang up") None) = Transient.
Proof. repeat split; reflexivity. Qed.

(** ** Independent regeneration *)

Lemma mapScene_lookup (sceneId : nat) (f : Scene -> Scene) (l : list Scene) (i : nat) :
  mapScene sceneId f l !! i
  = (fun s => if decide (scene_id s = sceneId) then f s else s) <$> l !! i.
Proof. unfold mapScene. apply list_lookup_fmap. Qed.

Lemma mapScene_other (sceneId : nat) (f : Scene -> Scene) (l : list Scene) (i : nat) (s : Scene) :
  l !! i = Some s -> scene_id s <> sceneId -> mapScene sceneId f l !! i = Some s.
Proof.
  intros Hi Hne. rewrite mapScene_lookup, Hi. simpl. by rewrite decide_False.
Qed.

Lemma mapScene_target (sceneId : nat) (f : Scene -> Scene) (l : list Scene) (i : nat) (s : Scene) :
  l !! i = Some s -> scene_id s = sceneId -> mapScene sceneId f l !! i = Some (f s).
Proof.
  intros Hi He. rewrite mapScene_lookup, Hi. simpl. by rewrite decide_True.
Qed.

Lemma mapScene_length (sceneId : nat) (f : Scene -> Scene) (l : list Scene) :
  length (mapScene sceneId f l) = length l.
Proof. unfold mapScene. apply length_map. Qed.

(** With unique ids, [scenes.find(s => s.id === sceneId)] is the scene
    that carries the id. *)
Lemma find_unique_id (l : list Scene) (i : nat) (s : Scene) :
  NoDup (map scene_id l) -> l !! i = Some s ->
  List.find (fun x => bool_decide (scene_id x = scene_id s)) l = Some s.
Proof.
  revert i. induction l as [|x l IH]; intros i Hnd Hi; [done|].
  apply NoDup_cons in Hnd as [Hx Hnd]. destruct i as [|i]; simpl in Hi.
  - injection Hi as ->. simpl. by rewrite bool_decide_eq_true_2.
  - simpl. rewrite bool_decide_eq_false_2; [by eapply IH|].
    intros He. apply Hx. rewrite He.
    apply list_elem_of_fmap. exists s. split; [done|].
    by eapply list_elem_of_lookup_2.
Qed.

(** C7: regenerating the scene with id [sceneId] leaves every scene with
    another id as it was (id, prompt, image, loading flag and error, hence
    its status), whatever the services answer: scene not found, missing
    key, reference-analysis failure, hard synthesis failure, blocked or
    empty output, or success. *)
Theorem regenerate_leaves_other_scenes (svc : Services) (apiKey : option string)
    (style : string) (referenceImage : option File) (sceneId : nat) (ui : Ui)
    (i : nat) (s : Scene) :
  scenes ui !! i = Some s ->
  scene_id s <> sceneId ->
  scenes (handleRegenerateScene svc apiKey style referenceImage sceneId ui) !! i = Some s.
Proof.
  intros Hi Hne. unfold handleRegenerateScene.
  destruct (List.find _ (scenes ui)) as [target|]; [|done].
  destruct (negb (truthy_opt apiKey)); [done|].
  assert (mapScene sceneId (withLoadingError true None) (scenes ui) !! i = Some s)
    as H1 by by apply mapScene_other.
  destruct (resolveStyle svc style referenceImage) as [combinedStyle|e]; simpl.
  - destruct (generateImage svc 0 _) as [resp|e]; simpl.
    + destruct (firstImage resp); simpl; by apply mapScene_other.
    + by apply mapScene_other.
  - by apply mapScene_other.
Qed.

Lemma regenerate_leaves_other_scenes_witness :
  scenes (handleRegenerateScene sampleServices sampleKey "" None 1 (res_ui sampleRun)) !! 2
  = Some (mkScene 2 "a knight" None false (Some "API Error.")).
Proof.
  apply regenerate_leaves_other_scenes; [reflexivity | simpl; lia].
Defined.

(** X3: regeneration does not change the number of scenes either. *)
Lemma regenerate_length (svc : Services) (apiKey : option string)
    (style : string) (referenceImage : option File) (sceneId : nat) (ui : Ui) :
  length (scenes (handleRegenerateScene svc apiKey style referenceImage sceneId ui))
  = length (scenes ui).
Proof.
  unfold handleRegenerateScene.
  destruct (List.find _ (scenes ui)) as [target|]; [|done].
  destruct (negb (truthy_opt apiKey)); [done|].
  destruct (resolveStyle svc style referenceImage) as [combinedStyle|e]; simpl.
  - destruct (generateImage svc 0 _) as [resp|e]; simpl.
    + destruct (firstImage resp); simpl; by rewrite !mapScene_length.
    + by rewrite !mapScene_length.
  - by rewrite !mapScene_length.
Qed.

(** C10: when the scene at position [i] is regenerated (ids unique, key
    configured), a failed attempt keeps its image and sets its error
    ("Ref image error.", "API Error." or "Regeneration blocked or
    failed."); only a successful attempt replaces the image, by the data
    URL of the new picture, and clears the error. *)
Theorem regenerate_keeps_image_on_failure (svc : Services) (apiKey : option string)
    (style : string) (referenceImage : option File) (ui : Ui) (i : nat) (s : Scene) :
  truthy_opt apiKey = true ->
  NoDup (map scene_id (scenes ui)) ->
  scenes ui !! i = Some s ->
  scenes (handleRegenerateScene svc apiKey style referenceImage (scene_id s) ui) !! i
  = Some
      match attempt svc style referenceImage (scene_prompt s) with
      | ReferenceFailed _ =>
          mkScene (scene_id s) (scene_prompt s) (scene_image s) false (Some "Ref image error.")
      | SynthesisFailed _ =>
          mkScene (scene_id s) (scene_prompt s) (scene_image s) false (Some "API Error.")
      | BlockedOrEmpty =>
          mkScene (scene_id s) (scene_prompt s) (scene_image s) false
            (Some "Regeneration blocked or failed.")
      | Produced imageBytes =>
          mkScene (scene_id s) (scene_prompt s) (Some (dataUrl imageBytes)) false None
      end.
Proof.
  intros Hkey Hnd Hi. unfold handleRegenerateScene, attempt.
  rewrite (find_unique_id _ i s Hnd Hi), Hkey. simpl.
  assert (mapScene (scene_id s) (withLoadingError true None) (scenes ui) !! i
          = Some (withLoadingError true None s)) as H1 by by apply mapScene_target.
  destruct (resolveStyle svc style referenceImage) as [combinedStyle|e]; simpl.
  - destruct (generateImage svc 0 _) as [resp|e]; simpl.
    + destruct (firstImage resp); simpl;
        by rewrite (mapScene_target _ _ _ _ _ H1 eq_refl).
    + by rewrite (mapScene_target _ _ _ _ _ H1 eq_refl).
  - by rewrite (mapScene_target _ _ _ _ _ H1 eq_refl).
Qed.

Lemma regenerate_keeps_image_witness :
  scenes (handleRegenerateScene failingServices sampleKey "" None 0 (res_ui sampleRun)) !! 0
  = Some (mkScene 0 "a castle" (Some "data:image/jpeg;base64,AAAA") false (Some "API Error.")).
Proof.
  apply (regenerate_keeps_image_on_failure failingServices sampleKey "" None
           (res_ui sampleRun) 0
           (mkScene 0 "a castle" (Some "data:image/jpeg;base64,AAAA") false None)).
  - reflexivity.
  - apply (bool_decide_unpack _). reflexivity.
  - reflexivity.
Defined.

(** A successful regeneration replaces the image and clears the error. *)
Example regenerate_replaces_image :
  scenes (handleRegenerateScene sampleServices sampleKey "" None 1 (res_ui sampleRun)) !! 1
  = Some (mkScene 1 "a dragon" (Some "data:image/jpeg;base64,AAAA") false None).
Proof. reflexivity. Qed.

(** ** The synthesis loop *)

Lemma mapFrom_lookup {A B : Type} (f : nat -> A -> B) (n : nat) (l : list A) (j : nat) :
  mapFrom f n l !! j = f (n + j) <$> l !! j.
Proof.
  revert n j. induction l as [|x l IH]; intros n j; [done|].
  destruct j as [|j]; simpl.
  - by rewrite Nat.add_0_r.
  - rewrite IH. by replace (S n + j) with (n + S j) by lia.
Qed.

Lemma mapFrom_length {A B : Type} (f : nat -> A -> B) (n : nat) (l : list A) :
  length (mapFrom f n l) = length l.
Proof. revert n. induction l as [|x l IH]; intros n; simpl; [done | by rewrite IH]. Qed.

Lemma mapFrom_map {A B C : Type} (g : B -> C) (f : nat -> A -> B) (n : nat) (l : list A) :
  map g (mapFrom f n l) = mapFrom (fun j x => g (f j x)) n l.
Proof. revert n. induction l as [|x l IH]; intros n; simpl; [done | by rewrite IH]. Qed.

Lemma imap_mapFrom_gen {A B : Type} (f : nat -> A -> B) (n : nat) (l : list A) :
  imap (fun j => f (n + j)) l = mapFrom f n l.
Proof.
  revert n. induction l as [|x l IH]; intros n; simpl; [done|].
  rewrite Nat.add_0_r. f_equal. rewrite <- IH. apply imap_ext.
  intros j y _. simpl. by replace (n + S j) with (S n + j) by lia.
Qed.

Lemma materialize_mapFrom (promptTexts : list string) :
  materialize promptTexts = mapFrom fresh 0 promptTexts.
Proof. unfold materialize. by rewrite <- imap_mapFrom_gen. Qed.

Lemma mapScene_untouched (sceneId : nat) (f : Scene -> Scene) (l : list Scene) :
  Forall (fun s => scene_id s <> sceneId) l -> mapScene sceneId f l = l.
Proof.
  induction 1 as [|s l Hs _ IH]; [done|].
  unfold mapScene in *. simpl. by rewrite decide_False, IH.
Qed.

Lemma mapScene_app (sceneId : nat) (f : Scene -> Scene) (l1 l2 : list Scene) :
  mapScene sceneId f (l1 ++ l2) = mapScene sceneId f l1 ++ mapScene sceneId f l2.
Proof. unfold mapScene. apply map_app. Qed.

Lemma stopScene_done (finalError : string) (l : list Scene) :
  Forall (fun s => scene_isLoading s = false) l -> map (stopScene finalError) l = l.
Proof.
  induction 1 as [|s l Hs _ IH]; [done|]. simpl. rewrite IH. f_equal.
  destruct s as [i p im ld er]. simpl in Hs. subst ld. reflexivity.
Qed.

Lemma stopScene_fresh (n : nat) (ps : list string) :
  map (stopScene "API Error.") (mapFrom fresh n ps) = mapFrom stopped n ps.
Proof. by rewrite mapFrom_map. Qed.

Lemma fresh_ids_above (n m : nat) (ps : list string) :
  n < m -> Forall (fun s => scene_id s <> n) (mapFrom fresh m ps).
Proof.
  revert m. induction ps as [|p ps IH]; intros m Hm; simpl; constructor.
  - simpl. lia.
  - apply IH. lia.
Qed.

(** What the loop leaves when it is entered at position [n] with the
    scenes before [n] done and the scenes from [n] on fresh. *)
Lemma synthesisLoop_spec (svc : Services) (cs : string) (ps : list string) :
  forall (n : nat) (done : list Scene) (r : Run),
  length (imageCalls r) = n ->
  Forall (fun s => scene_id s < n /\ scene_isLoading s = false) done ->
  scenes (run_ui r) = done ++ mapFrom fresh n ps ->
  let k := answeredPrefix svc cs n ps in
  let R := synthesisLoop svc cs (mapFrom fresh n ps) r in
  scenes (run_ui R)
  = done ++ mapFrom (settled svc cs) n (take k ps) ++ mapFrom stopped (n + k) (drop k ps)
  /\ finalScenes R = finalScenes r ++ mapFrom (settled svc cs) n (take k ps)
  /\ imageCalls R = imageCalls r ++ mapFrom (requestFor cs) n (take (S k) ps)
  /\ (k = length ps ->
      isGenerating (run_ui R) = isGenerating (run_ui r)
      /\ globalMessage (run_ui R) = globalMessage (run_ui r))
  /\ (forall p e, ps !! k = Some p ->
      generateImage svc (n + k) (fullPrompt p cs) = Rejected e ->
      isGenerating (run_ui R) = false
      /\ globalMessage (run_ui R) = Some (handleApiError e)).
Proof.
  induction ps as [|p ps IH]; intros n done r Hlen Hdone Hsc; cbn zeta.
  - simpl in *. rewrite !app_nil_r in *. split_and!; done.
  - cbn [mapFrom synthesisLoop answeredPrefix]. rewrite Hlen.
    change (scene_prompt (fresh n p)) with p.
    destruct (generateImage svc n (fullPrompt p cs)) as [resp|e] eqn:Hcall.
    + set (u := resolved resp (fresh n p)).
      assert (u = settled svc cs n p) as Hu by (unfold settled; by rewrite Hcall).
      assert (scene_id u = n /\ scene_isLoading u = false) as [Hid Hld]
        by (unfold u, resolved; by destruct (firstImage resp)).
      change (scene_id (fresh n p)) with n.
      specialize (IH (S n) (done ++ [u])
        (mkRun (setScenes (mapScene n (fun _ => u)) (run_ui r))
               (finalScenes r ++ [u]) (imageCalls r ++ [requestFor cs n p]))).
      destruct IH as (H1 & H2 & H3 & H4 & H5).
      * simpl. rewrite length_app. simpl. lia.
      * apply Forall_app. split.
        -- eapply Forall_impl; [exact Hdone|]. simpl. intros s [? ?]. split; [lia|done].
        -- constructor; [|constructor]. split; [lia|done].
      * simpl. rewrite Hsc, mapScene_app. cbn [mapFrom].
        rewrite mapScene_untouched.
        2:{ eapply Forall_impl; [exact Hdone|]. simpl. intros s [? ?]. lia. }
        unfold mapScene at 1. cbn [map]. change (scene_id (fresh n p)) with n.
        rewrite decide_True by done.
        fold (mapScene n (fun _ => u) (mapFrom fresh (S n) ps)).
        rewrite mapScene_untouched by (apply fresh_ids_above; lia).
        by rewrite <- app_assoc.
      * unfold requestFor in *. simpl in H2, H3.
        cbn [take drop mapFrom]. rewrite <- Hu.
        replace (n + S (answeredPrefix svc cs (S n) ps))
          with (S n + answeredPrefix svc cs (S n) ps) by lia.
        split_and!.
        -- rewrite H1. by rewrite <- app_assoc.
        -- rewrite H2. by rewrite <- app_assoc.
        -- rewrite H3. by rewrite <- app_assoc.
        -- intros Hk. simpl in Hk, H4. apply H4. lia.
        -- intros q e Hq He. simpl in Hq. eapply H5; eauto.
    + simpl. rewrite Nat.add_0_r, Hsc, map_app.
      rewrite stopScene_done
        by (eapply Forall_impl; [exact Hdone|]; simpl; by intros s [? ?]).
      change (fresh n p :: mapFrom fresh (S n) ps) with (mapFrom fresh n (p :: ps)).
      rewrite stopScene_fresh. simpl. rewrite ?take_0, ?app_nil_r.
      split_and!; try done.
      intros q e' Hq He. injection Hq as <-. split; [done | congruence].
Qed.

Lemma answeredPrefix_le (svc : Services) (cs : string) (ps : list string) (n : nat) :
  answeredPrefix svc cs n ps <= length ps.
Proof.
  revert n. induction ps as [|p ps IH]; intros n; simpl; [lia|].
  destruct (generateImage svc n _); [specialize (IH (S n))|]; lia.
Qed.

(** The first rejected request is where the answered prefix ends. *)
Lemma answeredPrefix_first_rejection (svc : Services) (cs : string)
    (ps : list string) (n k : nat) (pk : string) (e : Exception) :
  (forall j p, j < k -> ps !! j = Some p ->
     exists resp, generateImage svc (n + j) (fullPrompt p cs) = Resolved resp) ->
  ps !! k = Some pk ->
  generateImage svc (n + k) (fullPrompt pk cs) = Rejected e ->
  answeredPrefix svc cs n ps = k.
Proof.
  revert n k. induction ps as [|p ps IH]; intros n k Hbefore Hk Hrej; [done|].
  simpl. destruct k as [|k]; simpl in Hk.
  - injection Hk as ->. rewrite Nat.add_0_r in Hrej. by rewrite Hrej.
  - destruct (Hbefore 0 p) as [resp Hresp]; [lia | done |].
    rewrite Nat.add_0_r in Hresp. rewrite Hresp. f_equal.
    apply (IH (S n) k); [|done|].
    + intros j q Hj Hq. replace (S n + j) with (n + S j) by lia.
      apply Hbefore; [lia | done].
    + by replace (S n + k) with (n + S k) by lia.
Qed.

Lemma filter_all {A : Type} (P : A -> Prop) `{forall x, Decision (P x)} (l : list A) :
  Forall P l -> filter P l = l.
Proof.
  induction 1 as [|x l Hx _ IH]; [done|]. by rewrite filter_cons_True, IH.
Qed.

Lemma settled_not_loading (svc : Services) (cs : string) (j : nat) (p : string) :
  scene_isLoading (settled svc cs j p) = false.
Proof.
  unfold settled, resolved.
  destruct (generateImage svc j _) as [resp|e]; [by destruct (firstImage resp) | done].
Qed.

Lemma mapFrom_Forall {A B : Type} (f : nat -> A -> B) (P : B -> Prop) (n : nat) (l : list A) :
  (forall j x, P (f j x)) -> Forall P (mapFrom f n l).
Proof.
  intros HP. revert n. induction l as [|x l IH]; intros n; simpl; constructor; auto.
Qed.

Lemma requestFor_map (cs : string) (n : nat) (l : list string) :
  mapFrom (requestFor cs) n l = map (fun p => fullPrompt p cs) l.
Proof. revert n. induction l as [|x l IH]; intros n; simpl; [done | by rewrite IH]. Qed.

(** ** The bulk run *)

(** The state a run leaves once it got to the synthesis loop: with [k]
    the number of prompts answered before the first rejection, the first
    [k] scenes are settled from their answers and the others stopped; the
    requests are those of the first [k + 1] prompts; the session handed
    over, if any, holds the [k] settled scenes. *)
Lemma run_summary (svc : Services) (apiKey : option string) (script style : string)
    (referenceImage : option File) (ui : Ui) (cs : string) (prompts : list string) :
  reachesLoop svc apiKey script style referenceImage cs prompts ->
  let k := answeredPrefix svc cs 0 prompts in
  let done := mapFrom (settled svc cs) 0 (take k prompts) in
  let res := generateImages svc apiKey script style referenceImage ui in
  scenes (res_ui res) = done ++ mapFrom stopped k (drop k prompts)
  /\ res_calls res = map (fun p => fullPrompt p cs) (take (S k) prompts)
  /\ res_session res
     = (if existsb (fun s => truthy_opt (scene_image s)) done
        then Some (mkSession (now svc 0) (now svc 1) script done) else None)
  /\ isGenerating (res_ui res) = false
  /\ (k = length prompts -> globalMessage (res_ui res) = None)
  /\ (forall p e, prompts !! k = Some p ->
        generateImage svc k (fullPrompt p cs) = Rejected e ->
        globalMessage (res_ui res) = Some (handleApiError e)).
Proof.
  intros (Hscript & Hkey & Hstyle & Hprompts & Hne).
  assert (forall ui',
    generateImagesBody svc style referenceImage ui'
    = synthesisLoop svc cs (mapFrom fresh 0 prompts)
        (mkRun (setScenes (fun _ => mapFrom fresh 0 prompts) ui') [] [])) as Hbody.
  { intros ui'. unfold generateImagesBody. rewrite Hstyle, Hprompts.
    destruct prompts; [done|]. by rewrite materialize_mapFrom. }
  intros k done res. unfold res, generateImages.
  rewrite Hscript, Hkey. simpl negb. cbv iota. rewrite Hbody.
  set (r0 := mkRun _ [] []).
  destruct (synthesisLoop_spec svc cs prompts 0 [] r0) as (H1 & H2 & H3 & H4 & H5);
    [done | constructor | done |].
  fold k in H1, H2, H3, H4, H5. fold done in H1, H2.
  simpl in H1, H2, H3, H4. cbn [res_ui res_calls res_session].
  rewrite H2, H3, requestFor_map.
  rewrite (filter_all _ done)
    by (apply mapFrom_Forall; intros; apply settled_not_loading).
  split_and!; try done.
  - intros Hk. by apply H4.
  - intros p e Hp He. by apply (H5 p e).
Qed.

Example sampleRun_scenes :
  scenes (res_ui sampleRun)
  = [ mkScene 0 "a castle" (Some "data:image/jpeg;base64,AAAA") false None;
      mkScene 1 "a dragon" None false (Some "API Error.");
      mkScene 2 "a knight" None false (Some "API Error.") ]
  /\ length (res_calls sampleRun) = 2
  /\ globalMessage (res_ui sampleRun)
     = Some (mkMessage "The API key has exceeded its quota." MsgError).
Proof. split_and!; reflexivity. Qed.

(** C1: in a run that decomposes its script into [prompts], let the
    request for the scene at position [k] (counted from 0) be the first
    one rejected. Then every scene before [k] is as its answer resolved
    it (with an image: Succeeded, holding the data URL of that image);
    every scene from [k] on is Failed with the one error "API Error.";
    the classified message of the failure is the global message; and the
    image requests issued are those of the prompts up to position [k],
    none for a later prompt. *)
Theorem fail_fast (svc : Services) (apiKey : option string) (script style : string)
    (referenceImage : option File) (ui : Ui) (cs : string) (prompts : list string)
    (k : nat) (pk : string) (e : Exception) :
  reachesLoop svc apiKey script style referenceImage cs prompts ->
  (forall j p, j < k -> prompts !! j = Some p ->
     exists resp, generateImage svc j (fullPrompt p cs) = Resolved resp) ->
  prompts !! k = Some pk ->
  generateImage svc k (fullPrompt pk cs) = Rejected e ->
  let res := generateImages svc apiKey script style referenceImage ui in
  length (scenes (res_ui res)) = length prompts
  /\ (forall j p resp, j < k -> prompts !! j = Some p ->
        generateImage svc j (fullPrompt p cs) = Resolved resp ->
        scenes (res_ui res) !! j = Some (resolved resp (fresh j p))
        /\ forall imageBytes, firstImage resp = Some imageBytes ->
             resolved resp (fresh j p) = mkScene j p (Some (dataUrl imageBytes)) false None
             /\ status (resolved resp (fresh j p)) = Succeeded)
  /\ (forall j p, k <= j -> prompts !! j = Some p ->
        scenes (res_ui res) !! j = Some (mkScene j p None false (Some "API Error."))
        /\ status (mkScene j p None false (Some "API Error.")) = Failed)
  /\ globalMessage (res_ui res) = Some (handleApiError e)
  /\ res_calls res = map (fun p => fullPrompt p cs) (take (S k) prompts)
  /\ length (res_calls res) = S k.
Proof.
  intros Hreach Hbefore Hk Hrej res.
  destruct (run_summary svc apiKey script style referenceImage ui cs prompts Hreach)
    as (Hsc & Hcalls & _ & _ & _ & Hmsg).
  rewrite (answeredPrefix_first_rejection svc cs prompts 0 k pk e Hbefore Hk Hrej)
    in Hsc, Hcalls, Hmsg.
  fold res in Hsc, Hcalls, Hmsg.
  assert (k < length prompts) as Hlt by by eapply lookup_lt_Some.
  split_and!.
  - rewrite Hsc, length_app, !mapFrom_length, length_take, length_drop. lia.
  - intros j p resp Hj Hp Hresp. split.
    + rewrite Hsc, lookup_app_l by (rewrite mapFrom_length, length_take; lia).
      rewrite mapFrom_lookup, lookup_take_lt, Hp by done. simpl.
      unfold settled. by rewrite Hresp.
    + intros imageBytes Hbytes. unfold resolved. rewrite Hbytes. done.
  - intros j p Hj Hp. split; [|done].
    rewrite Hsc, lookup_app_r by (rewrite mapFrom_length, length_take; lia).
    rewrite mapFrom_length, length_take, mapFrom_lookup, lookup_drop.
    replace (k `min` length prompts) with k by lia.
    replace (k + (j - k)) with j by lia. by rewrite Hp.
  - by apply (Hmsg pk e).
  - done.
  - rewrite Hcalls, length_map, length_take. lia.
Qed.

Lemma fail_fast_witness :
  reachesLoop sampleServices sampleKey "Once upon a time" " watercolor " None
    "watercolor" samplePrompts
  /\ scenes (res_ui sampleRun) !! 0
     = Some (mkScene 0 "a castle" (Some "data:image/jpeg;base64,AAAA") false None)
  /\ scenes (res_ui sampleRun) !! 2
     = Some (mkScene 2 "a knight" None false (Some "API Error."))
  /\ globalMessage (res_ui sampleRun) = Some (handleApiError quotaFailure)
  /\ length (res_calls sampleRun) = 2.
Proof.
  assert (reachesLoop sampleServices sampleKey "Once upon a time" " watercolor " None
            "watercolor" samplePrompts) as Hreach
    by (unfold reachesLoop; split_and!; [reflexivity .. | discriminate]).
  destruct (fail_fast sampleServices sampleKey "Once upon a time" " watercolor " None
              emptyUi "watercolor" samplePrompts 1 "a dragon" quotaFailure)
    as (_ & Hbefore & Hafter & Hmsg & _ & Hcalls).
  - exact Hreach.
  - intros j p Hj Hp. destruct j as [|j]; [|lia].
    exists (sampleImage "AAAA"). reflexivity.
  - reflexivity.
  - reflexivity.
  - split_and!.
    + exact Hreach.
    + apply (Hbefore 0 "a castle" (sampleImage "AAAA")); [lia | reflexivity | reflexivity].
    + apply (Hafter 2 "a knight"); [lia | reflexivity].
    + exact Hmsg.
    + exact Hcalls.
Defined.

(** The stopped scenes do not carry the classified error: the failures
    of these two runs are classified differently (and announced by
    different global messages), yet both runs leave the same scenes, each
    stopped scene carrying the text "API Error." and not the classified
    message. *)
Lemma stopped_scenes_not_classified :
  let run e :=
    generateImages (rejectingWith e) sampleKey "Once upon a time" "" None emptyUi in
  classify quotaFailure = QuotaExceeded
  /\ classify credentialFailure = InvalidCredential
  /\ scenes (res_ui (run quotaFailure))
     = [ mkScene 0 "a castle" None false (Some "API Error.");
         mkScene 1 "a dragon" None false (Some "API Error.");
         mkScene 2 "a knight" None false (Some "API Error.") ]
  /\ scenes (res_ui (run credentialFailure)) = scenes (res_ui (run quotaFailure))
  /\ globalMessage (res_ui (run quotaFailure))
     = Some (mkMessage "The API key has exceeded its quota." MsgError)
  /\ globalMessage (res_ui (run credentialFailure))
     = Some (mkMessage "The configured API key is invalid or has been blocked." MsgError)
  /\ Forall (fun s => scene_error s <> Some (userMessage quotaFailure))
       (scenes (res_ui (run quotaFailure))).
Proof.
  cbn zeta. split_and!; try reflexivity.
  repeat constructor; discriminate.
Qed.

(** X1: the scenario of the specification, for any script, style and
    services: the script decomposes into three prompts, the first and the
    third request are answered with an image and the second without one.
    The scenes end Succeeded, Failed ("Generation blocked or failed.")
    and Succeeded, three requests are issued, and the session handed over
    holds exactly these three scenes. *)
Theorem scenario_blocked_second (svc : Services) (apiKey : option string)
    (script style : string) (referenceImage : option File) (ui : Ui) (cs : string)
    (p1 p2 p3 : string) (r1 r2 r3 : ImageResponse) (bytes1 bytes3 : string) :
  reachesLoop svc apiKey script style referenceImage cs [p1; p2; p3] ->
  generateImage svc 0 (fullPrompt p1 cs) = Resolved r1 -> firstImage r1 = Some bytes1 ->
  generateImage svc 1 (fullPrompt p2 cs) = Resolved r2 -> firstImage r2 = None ->
  generateImage svc 2 (fullPrompt p3 cs) = Resolved r3 -> firstImage r3 = Some bytes3 ->
  let res := generateImages svc apiKey script style referenceImage ui in
  let final :=
    [ mkScene 0 p1 (Some (dataUrl bytes1)) false None;
      mkScene 1 p2 None false (Some "Generation blocked or failed.");
      mkScene 2 p3 (Some (dataUrl bytes3)) false None ] in
  scenes (res_ui res) = final
  /\ map status (scenes (res_ui res)) = [Succeeded; Failed; Succeeded]
  /\ res_session res = Some (mkSession (now svc 0) (now svc 1) script final)
  /\ res_calls res = [fullPrompt p1 cs; fullPrompt p2 cs; fullPrompt p3 cs].
Proof.
  intros Hreach H1 B1 H2 B2 H3 B3 res final.
  destruct (run_summary svc apiKey script style referenceImage ui cs [p1; p2; p3] Hreach)
    as (Hsc & Hcalls & Hsess & _).
  fold res in Hsc, Hcalls, Hsess.
  assert (answeredPrefix svc cs 0 [p1; p2; p3] = 3) as Hk
    by (simpl; by rewrite H1, H2, H3).
  rewrite Hk in Hsc, Hcalls, Hsess. simpl in Hsc, Hcalls, Hsess.
  unfold settled, resolved in Hsc, Hsess.
  rewrite H1, H2, H3, B1, B2, B3 in Hsc, Hsess. simpl in Hsc, Hsess.
  split_and!; [done | by rewrite Hsc | done | done].
Qed.

Lemma scenario_blocked_second_witness :
  let res := generateImages secondBlocked sampleKey "Once upon a time" "" None emptyUi in
  map status (scenes (res_ui res)) = [Succeeded; Failed; Succeeded]
  /\ scenes (res_ui res) !! 1
     = Some (mkScene 1 "a dragon" None false (Some "Generation blocked or failed."))
  /\ (session_scenes <$> res_session res) = Some (scenes (res_ui res))
  /\ length (res_calls res) = 3.
Proof.
  cbn zeta.
  destruct (scenario_blocked_second secondBlocked sampleKey "Once upon a time" "" None
              emptyUi "" "a castle" "a dragon" "a knight"
              (sampleImage "AAAA") (mkImageResponse (Some [])) (sampleImage "AAAA")
              "AAAA" "AAAA")
    as (Hsc & Hst & Hsess & Hcalls); try reflexivity.
  - unfold reachesLoop. split_and!; [reflexivity .. | discriminate].
  - split_and!.
    + exact Hst.
    + by rewrite Hsc.
    + by rewrite Hsess, Hsc.
    + by rewrite Hcalls.
Defined.

Lemma elem_of_mapFrom {A B : Type} (f : nat -> A -> B) (n : nat) (l : list A) (y : B) :
  y ∈ mapFrom f n l -> exists j x, y = f j x.
Proof.
  intros Hy. apply list_elem_of_lookup in Hy as [i Hi].
  rewrite mapFrom_lookup in Hi. destruct (l !! i) as [x|]; [|done].
  injection Hi as <-. by exists (n + i), x.
Qed.

Lemma settled_image (svc : Services) (cs : string) (j : nat) (p : string) :
  truthy_opt (scene_image (settled svc cs j p)) = true
  <-> status (settled svc cs j p) = Succeeded.
Proof.
  unfold settled, resolved.
  destruct (generateImage svc j _) as [resp|e]; [destruct (firstImage resp)|]; done.
Qed.

Lemma settled_succeeded (svc : Services) (cs : string) (j : nat) (p : string) :
  status (settled svc cs j p) = Succeeded <-> is_Some (scene_image (settled svc cs j p)).
Proof.
  unfold settled, resolved.
  destruct (generateImage svc j _) as [resp|e]; [destruct (firstImage resp)|];
    (split; first [done | by intros [? [=]] | by eexists]).
Qed.

(** C5: in a run that gets to the synthesis loop, whether the loop ends
    normally or by a rejected request, a session is handed to
    [onGenerationComplete] if and only if some scene of the workspace
    ended Succeeded, which for these scenes is the same as holding an
    image; and the workspace keeps one scene per prompt either way. *)
Theorem session_iff_some_scene_succeeded (svc : Services) (apiKey : option string)
    (script style : string) (referenceImage : option File) (ui : Ui)
    (cs : string) (prompts : list string) :
  reachesLoop svc apiKey script style referenceImage cs prompts ->
  let res := generateImages svc apiKey script style referenceImage ui in
  (is_Some (res_session res)
   <-> exists s, s ∈ scenes (res_ui res) /\ status s = Succeeded)
  /\ (forall s, s ∈ scenes (res_ui res) ->
        (status s = Succeeded <-> is_Some (scene_image s)))
  /\ length (scenes (res_ui res)) = length prompts.
Proof.
  intros Hreach res.
  destruct (run_summary svc apiKey script style referenceImage ui cs prompts Hreach)
    as (Hsc & _ & Hsess & _).
  fold res in Hsc, Hsess.
  set (k := answeredPrefix svc cs 0 prompts) in *.
  set (done := mapFrom (settled svc cs) 0 (take k prompts)) in *.
  assert (k <= length prompts) as Hk by apply answeredPrefix_le.
  split_and!.
  - rewrite Hsess, Hsc. split.
    + destruct (existsb _ done) eqn:Hex; [|by intros [? [=]]]. intros _.
      apply existsb_exists in Hex as (s & Hin & Himg).
      apply list_elem_of_In in Hin. exists s. split; [set_solver|].
      destruct (elem_of_mapFrom _ _ _ _ Hin) as (j & p & ->).
      by apply settled_image.
    + intros (s & Hin & Hst). apply elem_of_app in Hin as [Hin|Hin].
      * assert (existsb (fun s => truthy_opt (scene_image s)) done = true) as ->; [|by eexists].
        apply existsb_exists. exists s. split; [by apply list_elem_of_In|].
        destruct (elem_of_mapFrom _ _ _ _ Hin) as (j & p & ->).
        by apply settled_image.
      * destruct (elem_of_mapFrom _ _ _ _ Hin) as (j & p & ->). done.
  - intros s. rewrite Hsc. intros [Hin|Hin]%elem_of_app.
    + destruct (elem_of_mapFrom _ _ _ _ Hin) as (j & p & ->). apply settled_succeeded.
    + destruct (elem_of_mapFrom _ _ _ _ Hin) as (j & p & ->).
      split; [done | by intros [? [=]]].
  - rewrite Hsc, length_app. unfold done.
    rewrite !mapFrom_length, length_take, length_drop. lia.
Qed.

Lemma sample_reachesLoop :
  reachesLoop sampleServices sampleKey "Once upon a time" " watercolor " None
    "watercolor" samplePrompts.
Proof. unfold reachesLoop; split_and!; [reflexivity .. | discriminate]. Qed.

Lemma session_iff_some_scene_succeeded_witness :
  (is_Some (res_session sampleRun)
   <-> exists s, s ∈ scenes (res_ui sampleRun) /\ status s = Succeeded)
  /\ length (scenes (res_ui sampleRun)) = 3.
Proof.
  destruct (session_iff_some_scene_succeeded sampleServices sampleKey "Once upon a time"
              " watercolor " None emptyUi "watercolor" samplePrompts sample_reachesLoop)
    as (Hiff & _ & Hlen).
  split; [exact Hiff | exact Hlen].
Defined.

(** A run whose requests are all answered without an image hands over no
    session and keeps its scenes. *)
Example blocked_run_not_persisted :
  let svc := mkServices (fun _ => Resolved "ink") (Resolved (PromptArray ["a"; "b"]))
               (fun _ _ => Resolved (mkImageResponse (Some []))) (fun _ => "t") in
  let res := generateImages svc sampleKey "script" "" None emptyUi in
  res_session res = None
  /\ scenes (res_ui res)
     = [ mkScene 0 "a" None false (Some "Generation blocked or failed.");
         mkScene 1 "b" None false (Some "Generation blocked or failed.") ].
Proof. split; reflexivity. Qed.

(** C9: when the request for the scene at position [k] is the first one
    rejected and an earlier request produced an image, the session handed
    to [onGenerationComplete] holds exactly the [k] scenes resolved before
    the failure, in order; the scenes from [k] on, stopped with "API
    Error.", stay in the workspace and are not part of the session. *)
Theorem fail_fast_session_excludes_failed (svc : Services) (apiKey : option string)
    (script style : string) (referenceImage : option File) (ui : Ui)
    (cs : string) (prompts : list string) (k : nat) (pk : string) (e : Exception) :
  reachesLoop svc apiKey script style referenceImage cs prompts ->
  (forall j p, j < k -> prompts !! j = Some p ->
     exists resp, generateImage svc j (fullPrompt p cs) = Resolved resp) ->
  prompts !! k = Some pk ->
  generateImage svc k (fullPrompt pk cs) = Rejected e ->
  (exists j p resp imageBytes, j < k /\ prompts !! j = Some p
     /\ generateImage svc j (fullPrompt p cs) = Resolved resp
     /\ firstImage resp = Some imageBytes) ->
  let res := generateImages svc apiKey script style referenceImage ui in
  exists session,
    res_session res = Some session
    /\ session_script session = script
    /\ session_scenes session = take k (scenes (res_ui res))
    /\ length (session_scenes session) = k
    /\ (forall j p resp, j < k -> prompts !! j = Some p ->
          generateImage svc j (fullPrompt p cs) = Resolved resp ->
          session_scenes session !! j = Some (resolved resp (fresh j p)))
    /\ (forall j p, k <= j -> prompts !! j = Some p ->
          scenes (res_ui res) !! j = Some (mkScene j p None false (Some "API Error."))
          /\ session_scenes session !! j = None).
Proof.
  intros Hreach Hbefore Hk Hrej (j0 & p0 & resp0 & bytes0 & Hj0 & Hp0 & Hresp0 & Hbytes0) res.
  destruct (run_summary svc apiKey script style referenceImage ui cs prompts Hreach)
    as (Hsc & _ & Hsess & _).
  rewrite (answeredPrefix_first_rejection svc cs prompts 0 k pk e Hbefore Hk Hrej)
    in Hsc, Hsess.
  fold res in Hsc, Hsess.
  assert (k < length prompts) as Hlt by by eapply lookup_lt_Some.
  set (done := mapFrom (settled svc cs) 0 (take k prompts)) in *.
  assert (length done = k) as Hlen
    by (unfold done; rewrite mapFrom_length, length_take; lia).
  assert (existsb (fun s => truthy_opt (scene_image s)) done = true) as Hex.
  { apply existsb_exists. exists (settled svc cs j0 p0). split.
    - apply list_elem_of_In, list_elem_of_lookup. exists j0. unfold done.
      by rewrite mapFrom_lookup, lookup_take_lt, Hp0.
    - unfold settled, resolved. by rewrite Hresp0, Hbytes0. }
  rewrite Hex in Hsess. eexists. split; [exact Hsess|]. simpl.
  split_and!.
  - done.
  - by rewrite Hsc, take_app_length'.
  - done.
  - intros j p resp Hj Hp Hresp. unfold done.
    rewrite mapFrom_lookup, lookup_take_lt, Hp by done. simpl.
    unfold settled. by rewrite Hresp.
  - intros j p Hj Hp. split.
    + rewrite Hsc, lookup_app_r by lia.
      rewrite Hlen, mapFrom_lookup, lookup_drop.
      replace (k + (j - k)) with j by lia. by rewrite Hp.
    + apply lookup_ge_None. lia.
Qed.

Lemma fail_fast_session_witness :
  exists session,
    res_session sampleRun = Some session
    /\ session_scenes session
       = [ mkScene 0 "a castle" (Some "data:image/jpeg;base64,AAAA") false None ]
    /\ length (scenes (res_ui sampleRun)) = 3.
Proof.
  destruct (fail_fast_session_excludes_failed sampleServices sampleKey "Once upon a time"
              " watercolor " None emptyUi "watercolor" samplePrompts 1 "a dragon"
              quotaFailure sample_reachesLoop)
    as (session & Hsess & _ & Hscenes & _).
  - intros j p Hj Hp. destruct j as [|j]; [|lia].
    exists (sampleImage "AAAA"). reflexivity.
  - reflexivity.
  - reflexivity.
  - exists 0, "a castle", (sampleImage "AAAA"), "AAAA".
    split_and!; [lia | reflexivity ..].
  - exists session. split_and!; [exact Hsess | exact Hscenes | reflexivity].
Defined.

(** ** BoundedSessionStore *)

(** The loop evicts from the front while the probe reports a full store. *)
Lemma saveLoop_evicts (probe : Probe) (l : list Session) (k : nat) :
  k < length l ->
  evictionsNeeded probe l k ->
  saveLoop probe l = saveLoop probe (drop k l).
Proof.
  revert l. induction k as [|k IH]; intros l Hk Hev; [done|].
  destruct l as [|s l]; [simpl in Hk; lia|].
  destruct (Hev 0) as (e & He & Hq); [lia|]. rewrite drop_0 in He.
  cbn [saveLoop]. rewrite He, Hq.
  rewrite bool_decide_eq_true_2 by (simpl in *; lia). simpl.
  apply IH; [simpl in Hk; lia|].
  intros i Hi. apply (Hev (S i)). lia.
Qed.


Lemma saveLoop_aborts (probe : Probe) (l : list Session) (e : Exception) :
  probe l = Some e ->
  isQuotaExceeded e = false \/ length l <= 1 ->
  saveLoop probe l = None.
Proof.
  intros He Hwhy. destruct l as [|s l]; simpl; rewrite He.
  - by rewrite andb_false_r.
  - destruct Hwhy as [->|Hlen]; [done|].
    rewrite bool_decide_eq_false_2 by (simpl in *; lia). by rewrite andb_false_r.
Qed.

(** Whatever the loop is left with was accepted by the probe and is a
    suffix of the candidate. *)
Lemma saveLoop_Some (probe : Probe) (l l' : list Session) :
  saveLoop probe l = Some l' ->
  probe l' = None
  /\ exists k, l' = drop k l /\ (k < length l \/ l = []) /\ evictionsNeeded probe l k.
Proof.
  revert l'. induction l as [|s l IH]; intros l' H; cbn [saveLoop] in H.
  - destruct (probe []) as [e|] eqn:He.
    + by rewrite andb_false_r in H.
    + injection H as <-. split; [done|]. exists 0. split_and!; [done | by right |].
      intros i Hi. lia.
  - destruct (probe (s :: l)) as [e|] eqn:He.
    + destruct (isQuotaExceeded e) eqn:Hq; [|done].
      destruct (bool_decide (1 < length (s :: l))) eqn:Hlen; [|by simpl in H].
      simpl in H.
      apply bool_decide_eq_true_1 in Hlen.
      destruct (IH l' H) as (Hok & k & -> & Hk & Hev). split; [done|].
      exists (S k). split_and!; [done | |].
      * left. destruct Hk as [Hk| ->]; simpl in *; lia.
      * intros [|i] Hi; [by exists e|]. simpl. apply Hev. lia.
    + injection H as <-. split; [done|]. exists 0. split_and!; [done | left; simpl; lia |].
      intros i Hi. lia.
Qed.

(** Every way the loop is abandoned: after some evictions the probe fails
    for a reason other than space, or with at most one session left. *)
Lemma saveLoop_None (probe : Probe) (l : list Session) :
  saveLoop probe l = None ->
  exists k e, k <= length l /\ evictionsNeeded probe l k
    /\ probe (drop k l) = Some e
    /\ (isQuotaExceeded e = false \/ length (drop k l) <= 1).
Proof.
  induction l as [|s l IH]; intros H; cbn [saveLoop] in H.
  - destruct (probe []) as [e|] eqn:He; [|done].
    exists 0, e. split_and!; [done | intros i Hi; lia | done | right; simpl; lia].
  - destruct (probe (s :: l)) as [e|] eqn:He; [|done].
    destruct (isQuotaExceeded e) eqn:Hq.
    + destruct (bool_decide (1 < length (s :: l))) eqn:Hlen.
      * simpl in H. destruct (IH H) as (k & e' & Hk & Hev & He' & Hwhy).
        exists (S k), e'. split_and!; [simpl; lia | | done | done].
        intros [|i] Hi; [by exists e|]. simpl. apply Hev. lia.
      * apply bool_decide_eq_false_1 in Hlen.
        exists 0, e. split_and!; [lia | intros i Hi; lia | done | right].
        rewrite drop_0. lia.
    + exists 0, e. split_and!; [lia | intros i Hi; lia | done | by left].
Qed.

(** Every successful [append] has the shape of a first-in first-out
    eviction: the stored sequence loses some of its oldest sessions and
    gains the new one at the end. *)
Lemma append_success_shape (probe : Probe) (newSession : Session) (app : App)
    (l' : list Session) :
  saveLoop probe (candidate app newSession) = Some l' ->
  exists k, k <= length (sessions app)
    /\ l' = drop k (sessions app) ++ [newSession]
    /\ evictionsNeeded probe (candidate app newSession) k
    /\ probe l' = None.
Proof.
  intros H. apply saveLoop_Some in H as (Hok & k & -> & Hk & Hev).
  assert (k <= length (sessions app)) as Hle.
  { destruct Hk as [Hk|Hk].
    - unfold candidate in Hk. rewrite length_app in Hk. simpl in Hk. lia.
    - unfold candidate in Hk. by destruct (sessions app). }
  exists k. split_and!; [done | | done | done].
  unfold candidate. by rewrite drop_app_le.
Qed.



(** C3: when the probe, after [k] evictions for lack of space, fails for
    another reason or fails with a single session left in the candidate,
    [append] fails: the session collection is the one before the call and
    the notification is raised. Moreover, whatever the probe answers, the
    collection after the call is either the one before it or a value the
    probe accepted. *)
Theorem failed_append_leaves_sessions (probe : Probe) (newSession : Session) (app : App)
    (k : nat) (e : Exception) :
  k <= length (sessions app) ->
  evictionsNeeded probe (candidate app newSession) k ->
  probe (drop k (candidate app newSession)) = Some e ->
  isQuotaExceeded e = false \/ k = length (sessions app) ->
  let app' := handleGenerationComplete probe newSession app in
  sessions app' = sessions app
  /\ globalMessage (workspace app') = Some storageFull
  /\ forall newSession' app0,
       let app1 := handleGenerationComplete probe newSession' app0 in
       sessions app1 = sessions app0 \/ probe (sessions app1) = None.
Proof.
  intros Hk Hev He Hwhy app'.
  assert (saveLoop probe (candidate app newSession) = None) as Hfail.
  { rewrite (saveLoop_evicts probe _ k); [| |done].
    - apply (saveLoop_aborts _ _ e He). destruct Hwhy as [?| ->]; [by left|right].
      unfold candidate. rewrite length_drop, length_app. simpl. lia.
    - unfold candidate. rewrite length_app. simpl. lia. }
  unfold app', handleGenerationComplete. fold (candidate app newSession).
  rewrite Hfail. split_and!; [done | done |].
  intros newSession' app0. cbn zeta.
  destruct (saveLoop probe (sessions app0 ++ [newSession'])) as [l'|] eqn:Hl; [|by left].
  right. simpl. by apply saveLoop_Some in Hl as [? _].
Qed.

Lemma failed_append_witness :
  let app' := handleGenerationComplete noRoom sessionC sampleApp in
  sessions app' = [sessionA; sessionB]
  /\ globalMessage (workspace app') = Some storageFull.
Proof.
  destruct (failed_append_leaves_sessions noRoom sessionC sampleApp 2 storageQuotaError)
    as (Hs & Hm & _).
  - simpl. lia.
  - intros i Hi. exists storageQuotaError. split; reflexivity.
  - reflexivity.
  - right. reflexivity.
  - split; [exact Hs | exact Hm].
Defined.

(** ** SessionAssembler *)

Lemma newPrompts_texts (newSession : Session) :
  map entry_text (newPrompts newSession)
  = filter (fun p => truthy p) (map scene_prompt (session_scenes newSession)).
Proof.
  unfold newPrompts. induction (session_scenes newSession) as [|s l IH]; [done|].
  simpl. rewrite !filter_cons. simpl.
  destruct (decide (truthy (scene_prompt s))); simpl; by rewrite IH.
Qed.

(** C2, as the code has it: when [append] fails the session collection is
    kept and the notification raised, but the prompt history has been
    extended all the same, by one entry per scene of the session with a
    non-empty prompt, in order: the history is extended before the save
    is attempted. *)
Theorem storage_full_still_extends_history (probe : Probe) (newSession : Session) (app : App) :
  appendFails probe newSession app ->
  let app' := handleGenerationComplete probe newSession app in
  sessions app' = sessions app
  /\ globalMessage (workspace app') = Some storageFull
  /\ promptHistory app' = promptHistory app ++ newPrompts newSession
  /\ map entry_text (newPrompts newSession)
     = filter (fun p => truthy p) (map scene_prompt (session_scenes newSession)).
Proof.
  intros Hfail app'. unfold appendFails in Hfail. unfold app', handleGenerationComplete.
  rewrite Hfail. split_and!; [done | done | done | apply newPrompts_texts].
Qed.

Lemma storage_full_still_extends_history_witness :
  let app' := handleGenerationComplete noRoom sessionC sampleApp in
  sessions app' = [sessionA; sessionB]
  /\ promptHistory app' = [mkPromptEntry "C-0" "a knight" "C"].
Proof.
  destruct (storage_full_still_extends_history noRoom sessionC sampleApp)
    as (Hs & _ & Hh & _).
  - reflexivity.
  - split; [exact Hs | exact Hh].
Defined.

(** Assembly is not all-or-nothing: on this input the append fails for
    lack of space, and the prompt history is not the one before the
    call. *)
Lemma storage_full_history_changed :
  appendFails noRoom sessionC sampleApp
  /\ promptHistory sampleApp = []
  /\ promptHistory (handleGenerationComplete noRoom sessionC sampleApp)
     = [mkPromptEntry "C-0" "a knight" "C"]
  /\ promptHistory (handleGenerationComplete noRoom sessionC sampleApp)
     <> promptHistory sampleApp.
Proof. split_and!; [reflexivity | reflexivity | reflexivity | discriminate]. Qed.

(** ** PromptHistoryIndex *)

Lemma promptImageMap_flat (l : list Session) (m : gmap string string) :
  foldl (fun map session => foldl recordScene map (session_scenes session)) m l
  = foldl recordScene m (scenesInStoreOrder l).
Proof.
  revert m. induction l as [|s l IH]; intros m; [done|].
  unfold scenesInStoreOrder in *. simpl. by rewrite foldl_app, IH.
Qed.

Lemma firstWrite_cons (text : string) (s : Scene) (l : list Scene) :
  firstWrite text (s :: l)
  = if bool_decide (scene_prompt s = text) && bool_decide (is_Some (scene_image s))
    then scene_image s else firstWrite text l.
Proof. unfold firstWrite. simpl. by destruct (_ && _). Qed.

(** The map after the scenes of [l] have been recorded into [m]: what [m]
    held stays (first write wins), a new key gets the image of the first
    scene of [l] that has it as prompt and holds an image. *)
Lemma recordScene_foldl (text : string) (l : list Scene) :
  forall m : gmap string string,
  Forall (fun s => scene_image s <> Some EmptyString) l ->
  foldl recordScene m l !! text
  = match m !! text with
    | Some image => Some image
    | None => firstWrite text l
    end.
Proof.
  induction l as [|s l IH]; intros m Hne.
  - simpl. by destruct (m !! text).
  - apply Forall_cons in Hne as [Hs Hne]. simpl. rewrite (IH _ Hne), firstWrite_cons.
    unfold recordScene. destruct (scene_image s) as [image|] eqn:Himg.
    + assert (truthy image = true) as -> by (destruct image; [done | done]).
      rewrite (bool_decide_eq_true_2 (is_Some (Some image))) by by eexists.
      rewrite andb_true_r.
      destruct (m !! scene_prompt s) as [old|] eqn:Hold; simpl.
      * destruct (decide (scene_prompt s = text)) as [<-|Hp].
        -- by rewrite Hold.
        -- by rewrite (bool_decide_eq_false_2 _ Hp).
      * destruct (decide (scene_prompt s = text)) as [<-|Hp].
        -- by rewrite lookup_insert_eq, Hold, bool_decide_eq_true_2.
        -- rewrite lookup_insert_ne by done. by rewrite (bool_decide_eq_false_2 _ Hp).
    + rewrite (bool_decide_eq_false_2 (is_Some None)) by by intros [? [=]].
      by rewrite andb_false_r.
Qed.

(** C6: over a store whose images are non-empty strings, [imageFor text]
    is the image of the first scene, going through the sessions in store
    order and through the scenes of each in order, whose prompt is [text]
    and whose image is not null; [None] when there is no such scene. *)
Theorem imageFor_first_write_wins (sessions : list Session) (text : string) :
  imagesNonEmpty sessions ->
  imageFor sessions text = firstWrite text (scenesInStoreOrder sessions).
Proof.
  intros Hne. unfold imageFor, promptImageMap.
  rewrite promptImageMap_flat.
  rewrite (recordScene_foldl text (scenesInStoreOrder sessions) ∅ Hne).
  by rewrite lookup_empty.
Qed.

Lemma imageFor_first_write_wins_witness :
  imageFor [sessionA; sessionB; sessionC] "a castle" = Some "data:image/jpeg;base64,AAAA".
Proof.
  rewrite (imageFor_first_write_wins [sessionA; sessionB; sessionC] "a castle").
  - reflexivity.
  - unfold imagesNonEmpty. simpl. repeat constructor; discriminate.
Defined.

Lemma firstWrite_app (text : string) (l1 l2 : list Scene) :
  firstWrite text (l1 ++ l2)
  = match firstWrite text l1 with
    | Some image => Some image
    | None => firstWrite text l2
    end.
Proof.
  induction l1 as [|s l1 IH]; [done|].
  rewrite <- app_comm_cons, !firstWrite_cons.
  destruct (bool_decide (scene_prompt s = text)); simpl; [|done].
  destruct (scene_image s) as [image|]; [done | exact IH].
Qed.

(** In particular, with sessions [A] then [B] in the store, both holding
    a scene with prompt [text] and an image, the answer is the image of
    the first such scene of [A]. *)
Corollary imageFor_earlier_session (A B : Session) (text image : string) :
  imagesNonEmpty [A; B] ->
  firstWrite text (session_scenes A) = Some image ->
  imageFor [A; B] text = Some image.
Proof.
  intros Hne HA. unfold imageFor, promptImageMap.
  rewrite promptImageMap_flat, (recordScene_foldl text _ ∅ Hne), lookup_empty.
  unfold scenesInStoreOrder. simpl. by rewrite firstWrite_app, HA.
Qed.

(** *** The stored images are non-empty

    Every image the pipeline puts into a session is a data URL, so the
    stores the application builds satisfy [imagesNonEmpty]. *)

Lemma imagesNonEmpty_sessions (l : list Session) :
  imagesNonEmpty l
  <-> Forall (fun s => Forall (fun sc => scene_image sc <> Some EmptyString)
                         (session_scenes s)) l.
Proof.
  unfold imagesNonEmpty, scenesInStoreOrder. induction l as [|s l IH]; simpl.
  - split; constructor.
  - rewrite Forall_app, Forall_cons, IH. done.
Qed.

Lemma resolved_image_nonempty (resp : ImageResponse) (scene : Scene) :
  scene_image (resolved resp scene) <> Some EmptyString.
Proof. unfold resolved. by destruct (firstImage resp). Qed.

Lemma synthesisLoop_final_images (svc : Services) (cs : string) (todo : list Scene) :
  forall r,
  Forall (fun sc => scene_image sc <> Some EmptyString) (finalScenes r) ->
  Forall (fun sc => scene_image sc <> Some EmptyString)
    (finalScenes (synthesisLoop svc cs todo r)).
Proof.
  induction todo as [|scene todo IH]; intros r Hr; [done|]. cbn [synthesisLoop].
  destruct (generateImage svc _ _) as [resp|e]; [|done].
  apply IH. simpl. apply Forall_app. split; [done|].
  constructor; [apply resolved_image_nonempty | constructor].
Qed.

Lemma generateImages_session_images (svc : Services) (apiKey : option string)
    (script style : string) (referenceImage : option File) (ui : Ui) (session : Session) :
  res_session (generateImages svc apiKey script style referenceImage ui) = Some session ->
  Forall (fun sc => scene_image sc <> Some EmptyString) (session_scenes session).
Proof.
  unfold generateImages.
  destruct (negb (truthy script)); [done|].
  destruct (negb (truthy_opt apiKey)); [done|]. simpl.
  destruct (existsb _ _); [|done]. intros [= <-]. simpl.
  eapply Forall_impl with (P := fun sc => scene_image sc <> Some EmptyString); [|done].
  eapply Forall_forall. intros sc [_ Hin]%list_elem_of_filter. revert sc Hin.
  apply Forall_forall. unfold generateImagesBody.
  destruct (resolveStyle svc style referenceImage); [|constructor].
  destruct (generatePrompts svc) as [[|[|p ps]]|]; try constructor.
  apply synthesisLoop_final_images. constructor.
Qed.

Lemma handleGenerationComplete_images (probe : Probe) (newSession : Session) (app : App) :
  imagesNonEmpty (sessions app) ->
  Forall (fun sc => scene_image sc <> Some EmptyString) (session_scenes newSession) ->
  imagesNonEmpty (sessions (handleGenerationComplete probe newSession app)).
Proof.
  rewrite !imagesNonEmpty_sessions. intros Happ Hnew. unfold handleGenerationComplete.
  destruct (saveLoop probe _) as [l'|] eqn:Hl; [|done]. simpl.
  apply saveLoop_Some in Hl as (_ & k & -> & _).
  apply Forall_drop, Forall_app. split; [done | by constructor].
Qed.

(** X2: a run of the pipeline, whatever the services and the storage
    answer, keeps the store within [imagesNonEmpty]. *)
Lemma runPipeline_images (svc : Services) (probe : Probe) (apiKey : option string)
    (script style : string) (referenceImage : option File) (app : App) :
  imagesNonEmpty (sessions app) ->
  imagesNonEmpty (sessions (runPipeline svc probe apiKey script style referenceImage app)).
Proof.
  intros Happ. unfold runPipeline.
  destruct (res_session _) as [session|] eqn:Hs; [|done].
  apply handleGenerationComplete_images; [done|].
  by eapply generateImages_session_images.
Qed.

Lemma runPipeline_images_witness :
  imagesNonEmpty
    (sessions (runPipeline sampleServices roomForTwo sampleKey "Once upon a time"
                 " watercolor " None sampleApp)).
Proof.
  apply runPipeline_images.
  unfold imagesNonEmpty. simpl. repeat constructor; discriminate.
Defined.

(** ** More on the bulk run *)

Lemma settled_id_prompt (svc : Services) (cs : string) (j : nat) (p : string) :
  scene_id (settled svc cs j p) = j /\ scene_prompt (settled svc cs j p) = p.
Proof.
  unfold settled, resolved.
  destruct (generateImage svc j _) as [resp|e]; [by destruct (firstImage resp) | done].
Qed.

Lemma mapFrom_fmap_const {A B C : Type} (g : B -> C) (f : nat -> A -> B) (h : A -> C)
    (n : nat) (l : list A) :
  (forall j x, g (f j x) = h x) -> map g (mapFrom f n l) = map h l.
Proof.
  intros Hg. revert n. induction l as [|x l IH]; intros n; simpl; [done|].
  by rewrite Hg, IH.
Qed.

Lemma mapFrom_fmap_index {A B : Type} (g : B -> nat) (f : nat -> A -> B)
    (n : nat) (l : list A) :
  (forall j x, g (f j x) = j) -> map g (mapFrom f n l) = seq n (length l).
Proof.
  intros Hg. revert n. induction l as [|x l IH]; intros n; simpl; [done|].
  by rewrite Hg, IH.
Qed.

(** Without a script, a key, a resolved style or a non-empty list of
    prompts, a run issues no image request and hands over no session. *)
Lemma run_not_reaching_loop (svc : Services) (apiKey : option string)
    (script style : string) (referenceImage : option File) (ui : Ui) :
  (forall cs prompts, ~ reachesLoop svc apiKey script style referenceImage cs prompts) ->
  res_calls (generateImages svc apiKey script style referenceImage ui) = []
  /\ res_session (generateImages svc apiKey script style referenceImage ui) = None
  /\ (truthy script = true -> truthy_opt apiKey = true ->
      scenes (res_ui (generateImages svc apiKey script style referenceImage ui)) = []
      /\ isGenerating (res_ui (generateImages svc apiKey script style referenceImage ui))
         = false).
Proof.
  intros Hno. unfold generateImages, generateImagesBody, reachesLoop in *.
  destruct (truthy script) eqn:Hs; simpl; [|by split_and!].
  destruct (truthy_opt apiKey) eqn:Hk; simpl; [|by split_and!].
  destruct (resolveStyle svc style referenceImage) as [cs|e] eqn:Hst; [|by split_and!].
  destruct (generatePrompts svc) as [[|[|p ps]]|e] eqn:Hp; try by split_and!.
  exfalso. apply (Hno cs (p :: ps)). by split_and!.
Qed.

(** X4: a run issues an image request or hands over a session only when
    the script is non-empty, the key configured, the style resolved and
    the script decomposed into a non-empty list of prompts. *)
Theorem requests_only_after_decomposition (svc : Services) (apiKey : option string)
    (script style : string) (referenceImage : option File) (ui : Ui) :
  let res := generateImages svc apiKey script style referenceImage ui in
  res_calls res <> [] \/ is_Some (res_session res) ->
  exists cs prompts, reachesLoop svc apiKey script style referenceImage cs prompts.
Proof.
  intros res Hdid. unfold res, generateImages, generateImagesBody, reachesLoop in *.
  destruct (truthy script) eqn:Hs; simpl in Hdid;
    [|by destruct Hdid as [?|[? [=]]]].
  destruct (truthy_opt apiKey) eqn:Hk; simpl in Hdid;
    [|by destruct Hdid as [?|[? [=]]]].
  destruct (resolveStyle svc style referenceImage) as [cs|e] eqn:Hst;
    [|by destruct Hdid as [?|[? [=]]]].
  destruct (generatePrompts svc) as [[|[|p ps]]|e] eqn:Hp;
    try by destruct Hdid as [?|[? [=]]].
  exists cs, (p :: ps). by split_and!.
Qed.

Lemma requests_only_after_decomposition_witness :
  exists cs prompts,
    reachesLoop sampleServices sampleKey "Once upon a time" " watercolor " None cs prompts.
Proof.
  apply (requests_only_after_decomposition sampleServices sampleKey "Once upon a time"
           " watercolor " None emptyUi).
  left. discriminate.
Defined.

(** X5: the image requests of a run are those of an initial part of the
    prompts, one per prompt and in script order; there are never more
    requests than prompts. *)
Theorem requests_follow_script_order (svc : Services) (apiKey : option string)
    (script style : string) (referenceImage : option File) (ui : Ui)
    (cs : string) (prompts : list string) :
  reachesLoop svc apiKey script style referenceImage cs prompts ->
  let res := generateImages svc apiKey script style referenceImage ui in
  res_calls res `prefix_of` map (fun p => fullPrompt p cs) prompts
  /\ 1 <= length (res_calls res) <= length prompts.
Proof.
  intros Hreach res.
  destruct (run_summary svc apiKey script style referenceImage ui cs prompts Hreach)
    as (_ & Hcalls & _).
  fold res in Hcalls. rewrite Hcalls.
  destruct Hreach as (_ & _ & _ & _ & Hne).
  split.
  - exists (map (fun p => fullPrompt p cs)
              (drop (S (answeredPrefix svc cs 0 prompts)) prompts)).
    by rewrite <- map_app, take_drop.
  - rewrite length_map, length_take. destruct prompts; [done|]. simpl. lia.
Qed.

Lemma requests_follow_script_order_witness :
  res_calls sampleRun
  `prefix_of` map (fun p => fullPrompt p "watercolor") samplePrompts
  /\ 1 <= length (res_calls sampleRun) <= 3.
Proof.
  exact (requests_follow_script_order sampleServices sampleKey "Once upon a time"
           " watercolor " None emptyUi "watercolor" samplePrompts sample_reachesLoop).
Defined.

(** X6: a run that gets to the synthesis loop leaves one scene per prompt,
    in script order, with the ids 0, 1, ... and the prompts as decomposed;
    no scene is left loading and the run is no longer generating. *)
Theorem run_keeps_script_order (svc : Services) (apiKey : option string)
    (script style : string) (referenceImage : option File) (ui : Ui)
    (cs : string) (prompts : list string) :
  reachesLoop svc apiKey script style referenceImage cs prompts ->
  let res := generateImages svc apiKey script style referenceImage ui in
  map scene_id (scenes (res_ui res)) = seq 0 (length prompts)
  /\ map scene_prompt (scenes (res_ui res)) = prompts
  /\ Forall (fun s => scene_isLoading s = false) (scenes (res_ui res))
  /\ isGenerating (res_ui res) = false.
Proof.
  intros Hreach res.
  destruct (run_summary svc apiKey script style referenceImage ui cs prompts Hreach)
    as (Hsc & _ & _ & Hgen & _).
  fold res in Hsc, Hgen. rewrite Hsc.
  set (k := answeredPrefix svc cs 0 prompts).
  assert (k <= length prompts) as Hk by apply answeredPrefix_le.
  split_and!; [| | |done].
  - rewrite map_app.
    rewrite (mapFrom_fmap_index scene_id (settled svc cs))
      by (intros; apply settled_id_prompt).
    rewrite (mapFrom_fmap_index scene_id stopped) by done.
    rewrite length_take, length_drop.
    replace (k `min` length prompts) with k by lia.
    transitivity (seq 0 (k + (length prompts - k)));
      [by rewrite seq_app | f_equal; lia].
  - rewrite map_app.
    rewrite (mapFrom_fmap_const scene_prompt (settled svc cs) (fun p => p))
      by (intros; apply settled_id_prompt).
    rewrite (mapFrom_fmap_const scene_prompt stopped (fun p => p)) by done.
    by rewrite !map_id, take_drop.
  - apply Forall_app. split; apply mapFrom_Forall; [|done].
    intros. apply settled_not_loading.
Qed.

Lemma run_keeps_script_order_witness :
  map scene_id (scenes (res_ui sampleRun)) = [0; 1; 2]
  /\ map scene_prompt (scenes (res_ui sampleRun)) = samplePrompts.
Proof.
  destruct (run_keeps_script_order sampleServices sampleKey "Once upon a time"
              " watercolor " None emptyUi "watercolor" samplePrompts sample_reachesLoop)
    as (Hid & Hp & _).
  split; [exact Hid | exact Hp].
Defined.

Lemma settled_buttons (svc : Services) (cs : string) (j : nat) (p : string) :
  let s := settled svc cs j p in
  (status s = Succeeded /\ previewable s = true /\ showRegenerate s = false)
  \/ (status s = Failed /\ previewable s = false /\ showRegenerate s = true).
Proof.
  cbn zeta. unfold settled, resolved.
  destruct (generateImage svc j _) as [resp|e]; [destruct (firstImage resp)|];
    [left | right | right]; by split_and!.
Qed.

(** X7: after a run that got to the synthesis loop every scene is either
    Succeeded, and then it can be previewed and is not offered for
    regeneration, or Failed, and then it is offered for regeneration and
    cannot be previewed. *)
Theorem buttons_after_run (svc : Services) (apiKey : option string)
    (script style : string) (referenceImage : option File) (ui : Ui)
    (cs : string) (prompts : list string) :
  reachesLoop svc apiKey script style referenceImage cs prompts ->
  Forall (fun s =>
            (status s = Succeeded /\ previewable s = true /\ showRegenerate s = false)
            \/ (status s = Failed /\ previewable s = false /\ showRegenerate s = true))
    (scenes (res_ui (generateImages svc apiKey script style referenceImage ui))).
Proof.
  intros Hreach.
  destruct (run_summary svc apiKey script style referenceImage ui cs prompts Hreach)
    as (Hsc & _).
  rewrite Hsc. apply Forall_app. split; apply mapFrom_Forall.
  - intros j p. apply settled_buttons.
  - intros j p. right. by split_and!.
Qed.

Lemma buttons_after_run_witness :
  map showRegenerate (scenes (res_ui sampleRun)) = [false; true; true]
  /\ Forall (fun s =>
            (status s = Succeeded /\ previewable s = true /\ showRegenerate s = false)
            \/ (status s = Failed /\ previewable s = false /\ showRegenerate s = true))
       (scenes (res_ui sampleRun)).
Proof.
  split; [reflexivity|].
  exact (buttons_after_run sampleServices sampleKey "Once upon a time" " watercolor "
           None emptyUi "watercolor" samplePrompts sample_reachesLoop).
Defined.

Lemma existsb_image_stopped (k : nat) (ps : list string) :
  existsb (fun s => truthy_opt (scene_image s)) (mapFrom stopped k ps) = false.
Proof. revert k. induction ps as [|p ps IH]; intros k; simpl; [done | apply IH]. Qed.

(** X8: for a run started with a script and a key, "Download All" is
    offered afterwards exactly when the run handed a session to
    [onGenerationComplete]. *)
Theorem download_all_iff_session (svc : Services) (apiKey : option string)
    (script style : string) (referenceImage : option File) (ui : Ui) :
  truthy script = true ->
  truthy_opt apiKey = true ->
  let res := generateImages svc apiKey script style referenceImage ui in
  showDownloadAll (res_ui res) = true <-> is_Some (res_session res).
Proof.
  intros Hs Hk res.
  destruct (resolveStyle svc style referenceImage) as [cs|e] eqn:Hst.
  1: destruct (generatePrompts svc) as [[|[|p ps]]|e'] eqn:Hp.
  3: {
    assert (reachesLoop svc apiKey script style referenceImage cs (p :: ps)) as Hreach
      by by split_and!.
    destruct (run_summary svc apiKey script style referenceImage ui cs (p :: ps) Hreach)
      as (Hsc & _ & Hsess & Hgen & _).
    fold res in Hsc, Hsess, Hgen.
    unfold showDownloadAll. rewrite Hgen, Hsess, Hsc, existsb_app, existsb_image_stopped.
    rewrite orb_false_r. simpl.
    destruct (existsb _ _) eqn:Hex.
    - rewrite andb_true_r. split; [by eexists|]. intros _.
      apply bool_decide_eq_true_2. rewrite length_app.
      destruct (mapFrom (settled svc cs) 0 _); [done | simpl; lia].
    - rewrite andb_false_r. split; [done | by intros [? [=]]]. }
  all: destruct (run_not_reaching_loop svc apiKey script style referenceImage ui)
         as (_ & Hsess & Hui);
    [intros cs' prompts' (_ & _ & Hst' & Hp' & Hne'); congruence|];
    destruct (Hui Hs Hk) as [Hsc Hgen]; fold res in Hsess, Hsc, Hgen;
    unfold showDownloadAll; rewrite Hsess, Hsc; simpl; rewrite andb_false_r;
    (split; [done | by intros [? [=]]]).
Qed.

Lemma download_all_iff_session_witness :
  showDownloadAll (res_ui sampleRun) = true <-> is_Some (res_session sampleRun).
Proof.
  apply (download_all_iff_session sampleServices sampleKey "Once upon a time"
           " watercolor " None emptyUi); reflexivity.
Defined.

(** ** Preview navigation *)

Lemma currentPreviewScene_is_Some (all : list Scene) (i : Z) :
  is_Some (currentPreviewScene all (Some (Finite i)))
  <-> (0 <= i < Z.of_nat (length (previewableScenes all)))%Z.
Proof.
  unfold currentPreviewScene. destruct (Z.leb_spec 0 i) as [Hi|Hi].
  - rewrite lookup_lt_is_Some. lia.
  - split; [by intros [? [=]] | lia].
Qed.

Lemma handleNextImage_in_range (all : list Scene) (i : Z) :
  (0 <= i < Z.of_nat (length (previewableScenes all)))%Z ->
  handleNextImage all (Some (Finite i))
  = Some (Finite (if decide (i + 1 = Z.of_nat (length (previewableScenes all)))%Z
                  then 0 else i + 1)%Z).
Proof.
  intros Hi. unfold handleNextImage.
  destruct (length (previewableScenes all)) as [|n] eqn:Hlen; [lia|].
  simpl orZero. do 2 f_equal. case_decide as Hd.
  - rewrite Hd. apply Z.rem_same. lia.
  - apply Z.rem_small. lia.
Qed.

Lemma handlePrevImage_in_range (all : list Scene) (i : Z) :
  (0 <= i)%Z ->
  handlePrevImage all (Some (Finite i))
  = Some (Finite (if decide (i = 0)%Z
                  then Z.of_nat (length (previewableScenes all)) - 1 else i - 1)%Z).
Proof.
  intros Hi. unfold handlePrevImage. destruct i as [|p|p]; [done | | lia].
  by rewrite decide_False.
Qed.

(** X9: opening the preview of a scene that has an image and no error
    shows a scene with that id, which has an image and no error; for any
    other id the preview is left as it was. *)
Theorem open_preview_shows_scene (all : list Scene) (sceneId : nat)
    (previewIndex : option JsNumber) :
  (exists s, currentPreviewScene all (handleOpenPreview all sceneId previewIndex) = Some s
     /\ scene_id s = sceneId /\ previewable s = true /\ s ∈ all)
  \/ (handleOpenPreview all sceneId previewIndex = previewIndex
      /\ forall s, s ∈ all -> scene_id s = sceneId -> previewable s = false).
Proof.
  unfold handleOpenPreview.
  destruct (list_find _ (previewableScenes all)) as [[index s]|] eqn:Hfind.
  - left. apply list_find_Some in Hfind as (Hlook & Hid & _).
    exists s. unfold currentPreviewScene.
    destruct (Z.leb_spec 0 (Z.of_nat index)); [|lia].
    rewrite Nat2Z.id. split; [done|]. split; [done|].
    apply list_elem_of_lookup_2 in Hlook.
    apply list_elem_of_filter in Hlook as [Hp Hin].
    split; [by apply Is_true_true | done].
  - right. split; [done|]. intros s Hin Hid.
    destruct (previewable s) eqn:Hp; [|done]. exfalso.
    apply list_find_None in Hfind. rewrite Forall_forall in Hfind.
    apply (Hfind s); [|done].
    apply list_elem_of_filter. split; [by apply Is_true_true | done].
Qed.

(** X10: from a preview that shows a picture, both "next" and "previous"
    lead to a preview that shows a picture: the index stays within the
    previewable scenes, wrapping around at either end. *)
Theorem preview_navigation_in_range (all : list Scene) (i : Z) :
  is_Some (currentPreviewScene all (Some (Finite i))) ->
  is_Some (currentPreviewScene all (handleNextImage all (Some (Finite i))))
  /\ is_Some (currentPreviewScene all (handlePrevImage all (Some (Finite i)))).
Proof.
  rewrite currentPreviewScene_is_Some. intros Hi.
  rewrite handleNextImage_in_range, handlePrevImage_in_range by lia.
  rewrite !currentPreviewScene_is_Some.
  split; case_decide; lia.
Qed.

(** X11: "previous" undoes "next" and "next" undoes "previous" on a
    preview that shows a picture. *)
Theorem preview_prev_next_inverse (all : list Scene) (i : Z) :
  is_Some (currentPreviewScene all (Some (Finite i))) ->
  handlePrevImage all (handleNextImage all (Some (Finite i))) = Some (Finite i)
  /\ handleNextImage all (handlePrevImage all (Some (Finite i))) = Some (Finite i).
Proof.
  rewrite currentPreviewScene_is_Some. intros Hi. split.
  - rewrite (handleNextImage_in_range all i) by lia.
    rewrite handlePrevImage_in_range by (case_decide; lia).
    do 2 f_equal. repeat case_decide; lia.
  - rewrite (handlePrevImage_in_range all i) by lia.
    rewrite handleNextImage_in_range by (case_decide; lia).
    do 2 f_equal. repeat case_decide; lia.
Qed.

Lemma preview_navigation_witness :
  let all := scenes (res_ui (generateImages secondBlocked sampleKey "Once upon a time"
                               "" None emptyUi)) in
  is_Some (currentPreviewScene all (handleNextImage all (Some (Finite 1))))
  /\ is_Some (currentPreviewScene all (handlePrevImage all (Some (Finite 1)))).
Proof.
  cbn zeta. apply preview_navigation_in_range. by eexists.
Defined.

Lemma preview_prev_next_witness :
  let all := scenes (res_ui (generateImages secondBlocked sampleKey "Once upon a time"
                               "" None emptyUi)) in
  handlePrevImage all (handleNextImage all (Some (Finite 1))) = Some (Finite 1)
  /\ handleNextImage all (handlePrevImage all (Some (Finite 1))) = Some (Finite 1).
Proof.
  cbn zeta. apply preview_prev_next_inverse. by eexists.
Defined.

(** ** File names *)

Lemma substringFrom0_length (n : nat) (s : string) :
  String.length (substringFrom0 n s) <= n.
Proof.
  revert s. induction n as [|n IH]; intros [|c s]; simpl; try lia.
  specialize (IH s). lia.
Qed.

Lemma substringFrom0_all (P : ascii -> bool) (n : nat) (s : string) :
  allChars P s = true -> allChars P (substringFrom0 n s) = true.
Proof.
  revert s. induction n as [|n IH]; intros [|c s]; simpl; try done.
  intros [Hc Hs]%andb_true_iff. by rewrite Hc, IH.
Qed.

Lemma substringFrom0_short (n : nat) (s : string) :
  String.length s <= n -> substringFrom0 n s = s.
Proof.
  revert s. induction n as [|n IH]; intros [|c s]; simpl; try done; [lia|].
  intros H. rewrite IH; [done | lia].
Qed.

Lemma removeInvalid_valid (s : string) : allChars validChar (removeInvalid s) = true.
Proof.
  induction s as [|c s IH]; [done|]. simpl.
  destruct (validChar c) eqn:Hc; [simpl; by rewrite Hc | done].
Qed.

Lemma validChar_lower (c : ascii) : validChar c = true -> lower_ascii c = c.
Proof. destruct c as [[] [] [] [] [] [] [] []]; by vm_compute. Qed.

Lemma validChar_not_space (c : ascii) : validChar c = true -> is_space c = false.
Proof. destruct c as [[] [] [] [] [] [] [] []]; by vm_compute. Qed.

Lemma sanitize_fixpoint (s : string) :
  allChars validChar s = true -> String.length s <= 100 -> sanitizeFilename s = s.
Proof.
  intros Hs Hlen. unfold sanitizeFilename.
  assert (toLowerCase s = s) as ->.
  { induction s as [|c s IH]; [done|]. simpl in *.
    apply andb_true_iff in Hs as [Hc Hs]. rewrite (validChar_lower _ Hc), IH; [done..|lia]. }
  assert (forall b, replaceSpaces b s = s) as ->.
  { clear Hlen. induction s as [|c s IH]; intros b; [done|]. simpl in *.
    apply andb_true_iff in Hs as [Hc Hs].
    by rewrite (validChar_not_space _ Hc), IH. }
  assert (removeInvalid s = s) as ->.
  { clear Hlen. induction s as [|c s IH]; [done|]. simpl in *.
    apply andb_true_iff in Hs as [Hc Hs]. by rewrite Hc, IH. }
  by apply substringFrom0_short.
Qed.

(** X12: a sanitized file name has at most 100 characters, each of them a
    lower-case letter, a digit, an underscore, a dot or a hyphen. *)
Theorem sanitizeFilename_valid (name : string) :
  String.length (sanitizeFilename name) <= 100
  /\ allChars validChar (sanitizeFilename name) = true.
Proof.
  unfold sanitizeFilename. split.
  - apply substringFrom0_length.
  - apply substringFrom0_all, removeInvalid_valid.
Qed.

(** X13: sanitizing is idempotent: a sanitized name is left as it is. *)
Theorem sanitizeFilename_idempotent (name : string) :
  sanitizeFilename (sanitizeFilename name) = sanitizeFilename name.
Proof.
  apply sanitize_fixpoint.
  - unfold sanitizeFilename. apply substringFrom0_all, removeInvalid_valid.
  - unfold sanitizeFilename. apply substringFrom0_length.
Qed.

Example sanitizeFilename_sample :
  sanitizeFilename "  A Castle,	at   Dawn! (v2.0)" = "_a_castle_at_dawn_v2.0".
Proof. reflexivity. Qed.

Lemma append_inv_head (a x y : string) : a +:+ x = a +:+ y -> x = y.
Proof. induction a as [|c a IH]; [done|]. rewrite !append_cons. intros [= H]. auto. Qed.

Lemma pretty_N_char_digit (x : N) : isDigit (pretty_N_char x) = true.
Proof. unfold pretty_N_char. by repeat case_match. Qed.

Lemma pretty_N_go_digits (x : N) (s : string) :
  exists d, pretty_N_go x s = d +:+ s /\ allChars isDigit d = true.
Proof.
  revert s. induction (N.lt_wf_0 x) as [x _ IH]; intros s.
  assert (x = 0 \/ 0 < x)%N as [->|Hx] by lia.
  - exists EmptyString. by rewrite pretty_N_go_0.
  - rewrite pretty_N_go_step by done.
    destruct (IH (x `div` 10)%N) with (s := String (pretty_N_char (x `mod` 10)) s)
      as (d & -> & Hd); [by apply N.div_lt|].
    exists (d +:+ String (pretty_N_char (x `mod` 10)) EmptyString). split.
    + clear. induction d as [|c d IHd]; [done|]. rewrite !append_cons. by f_equal.
    + clear -Hd. induction d as [|c d IHd]; simpl in *.
      * by rewrite pretty_N_char_digit.
      * apply andb_true_iff in Hd as [-> Hd]. by rewrite IHd.
Qed.

Lemma pretty_nat_digits (n : nat) : allChars isDigit (pretty n) = true.
Proof.
  unfold pretty, pretty_nat, pretty, pretty_N. case_decide; [done|].
  destruct (pretty_N_go_digits (N.of_nat n) EmptyString) as (d & -> & Hd).
  clear -Hd. induction d as [|c d IH]; [done|]. simpl in *.
  apply andb_true_iff in Hd as [-> Hd]. by rewrite IH.
Qed.

(** Two numerals followed by an underscore: equal texts, equal numerals. *)
Lemma digits_then_underscore (d1 d2 r1 r2 : string) :
  allChars isDigit d1 = true -> allChars isDigit d2 = true ->
  d1 +:+ String "_" r1 = d2 +:+ String "_" r2 -> d1 = d2.
Proof.
  revert d2. induction d1 as [|c d1 IH]; intros [|c2 d2] H1 H2 Heq; simpl in *.
  - done.
  - rewrite append_cons in Heq. injection Heq as <- _. done.
  - rewrite append_cons in Heq. injection Heq as -> _. done.
  - rewrite !append_cons in Heq. injection Heq as <- Heq.
    apply andb_true_iff in H1 as [_ H1]. apply andb_true_iff in H2 as [_ H2].
    f_equal. by apply IH.
Qed.

Lemma zipFilename_inj (s1 s2 : Scene) :
  zipFilename s1 = zipFilename s2 -> scene_id s1 = scene_id s2.
Proof.
  unfold zipFilename. intros H%append_inv_head.
  apply digits_then_underscore in H; [|apply pretty_nat_digits..].
  apply (inj pretty) in H. lia.
Qed.

Lemma zip_fold (l : list Scene) :
  forall m : gmap string (option string),
  Forall (fun s => truthy_opt (scene_image s) = true) l ->
  NoDup (map scene_id l) ->
  (forall s, s ∈ l -> m !! zipFilename s = None) ->
  size (foldl zipScene m l) = size m + length l
  /\ (forall s image, s ∈ l -> scene_image s = Some image ->
        foldl zipScene m l !! zipFilename s = Some (base64Data image))
  /\ (forall f, (forall s, s ∈ l -> zipFilename s <> f) ->
        foldl zipScene m l !! f = m !! f).
Proof.
  induction l as [|x l IH]; intros m Himg Hnd Hfree.
  - simpl. split_and!; [lia | by intros ? ? ?%elem_of_nil | done].
  - apply Forall_cons in Himg as [Hx Himg]. simpl in Hnd.
    apply NoDup_cons in Hnd as [Hxl Hnd].
    assert (forall s, s ∈ l -> zipFilename s <> zipFilename x) as Hother.
    { intros s Hs Heq. apply Hxl, list_elem_of_fmap. exists s.
      split; [by apply zipFilename_inj in Heq | done]. }
    simpl. unfold zipScene at 2 4 6.
    destruct (scene_image x) as [image|] eqn:Hi; [|done]. simpl in Hx. rewrite Hx.
    destruct (IH (<[zipFilename x := base64Data image]> m) Himg Hnd) as (Hsize & Hlook & Hrest).
    { intros s Hs. rewrite lookup_insert_ne by (intros ?; by eapply Hother).
      apply Hfree. by right. }
    split_and!.
    + rewrite Hsize, map_size_insert_None by (apply Hfree; by left). lia.
    + intros s image' [->|Hs]%elem_of_cons Hs'.
      * rewrite Hrest by done. rewrite lookup_insert_eq. congruence.
      * by apply Hlook.
    + intros f Hf. rewrite Hrest by (intros s Hs; apply Hf; by right).
      apply lookup_insert_ne. apply Hf. by left.
Qed.

(** X14: when the scenes have distinct ids within the integers a number
    holds exactly (below 2^53, so that [id + 1] adds exactly and prints in
    decimal), the archive of "Download All" holds one file per scene with
    an image, none overwriting another, and the file of a scene holds the
    data of its image. *)
Theorem zip_has_a_file_per_image (all : list Scene) :
  Forall (fun s => (Z.of_nat (scene_id s) + 1 < 2 ^ 53)%Z) all ->
  NoDup (map scene_id all) ->
  size (zipFiles all) = length (filter (fun s => truthy_opt (scene_image s)) all)
  /\ forall s image, s ∈ all -> scene_image s = Some image -> truthy image = true ->
       zipFiles all !! zipFilename s = Some (base64Data image).
Proof.
  intros _ Hnd. unfold zipFiles.
  set (l := filter (fun s => truthy_opt (scene_image s)) all).
  destruct (zip_fold l ∅) as (Hsize & Hlook & _).
  - apply Forall_forall. intros s [Hs _]%list_elem_of_filter. by apply Is_true_true.
  - eapply sublist_NoDup; [exact Hnd|]. apply (fmap_sublist scene_id), sublist_filter.
  - intros s _. apply lookup_empty.
  - split; [by rewrite Hsize, map_size_empty|].
    intros s image Hs Hi Ht. apply Hlook; [|done].
    apply list_elem_of_filter. split; [|done]. rewrite Hi. by apply Is_true_true.
Qed.

Lemma zip_has_a_file_per_image_witness :
  let all := scenes (res_ui (generateImages secondBlocked sampleKey "Once upon a time"
                               "" None emptyUi)) in
  size (zipFiles all) = 2
  /\ zipFiles all !! "scene_3_a_knight.jpeg" = Some (Some "AAAA").
Proof.
  cbn zeta.
  destruct (zip_has_a_file_per_image
              (scenes (res_ui (generateImages secondBlocked sampleKey "Once upon a time"
                                 "" None emptyUi)))) as (Hsize & Hlook).
  - repeat constructor; reflexivity.
  - apply (bool_decide_unpack _). reflexivity.
  - split; [exact Hsize|].
    apply (Hlook (mkScene 2 "a knight" (Some "data:image/jpeg;base64,AAAA") false None)
                 "data:image/jpeg;base64,AAAA"); [|reflexivity..].
    apply list_elem_of_lookup. by exists 2.
Defined.

Lemma untilComma_no_comma (s : string) :
  allChars (fun c => negb (isComma c)) s = true -> untilComma s = s.
Proof.
  induction s as [|c s IH]; [done|]. simpl.
  intros [Hc Hs]%andb_true_iff. apply negb_true_iff in Hc. by rewrite Hc, IH.
Qed.

(** X15: the data written for an image the pipeline produced is the image
    bytes the service returned (base64 text holds no comma). *)
Theorem base64Data_of_dataUrl (imageBytes : string) :
  allChars (fun c => negb (isComma c)) imageBytes = true ->
  base64Data (dataUrl imageBytes) = Some imageBytes.
Proof.
  intros H. unfold base64Data.
  change (afterComma (dataUrl imageBytes)) with (Some imageBytes).
  simpl. by rewrite untilComma_no_comma.
Qed.

Lemma base64Data_of_dataUrl_witness :
  base64Data (dataUrl "/9j/4AAQSkZJRg==") = Some "/9j/4AAQSkZJRg==".
Proof. apply base64Data_of_dataUrl. reflexivity. Defined.

(** ** Searching the history and the assets *)

Lemma lower_ascii_idemp (c : ascii) : lower_ascii (lower_ascii c) = lower_ascii c.
Proof. destruct c as [[] [] [] [] [] [] [] []]; reflexivity. Qed.

Lemma toLowerCase_idemp (s : string) : toLowerCase (toLowerCase s) = toLowerCase s.
Proof. induction s as [|c s IH]; simpl; [done | by rewrite lower_ascii_idemp, IH]. Qed.

Lemma matchesSearch_iff (searchTerm text : string) :
  matchesSearch searchTerm text = true <-> occursIgnoringCase searchTerm text.
Proof.
  unfold matchesSearch.
  rewrite (includes_lowered_iff (toLowerCase searchTerm) text (toLowerCase_idemp _)).
  unfold occursIgnoringCase, sameIgnoringCase. by rewrite upperCase_toLowerCase.
Qed.

Lemma matchesSearch_empty (text : string) : matchesSearch EmptyString text = true.
Proof. unfold matchesSearch. simpl. by destruct (toLowerCase text). Qed.

Lemma insertSorted_Permutation {A : Type} (compare : A -> A -> Z) (x : A) (l : list A) :
  insertSorted compare x l ≡ₚ x :: l.
Proof.
  induction l as [|y l IH]; simpl; [done|].
  destruct (0 <? compare x y)%Z; [|done]. rewrite IH. apply Permutation_swap.
Qed.

Lemma sortWith_Permutation {A : Type} (compare : A -> A -> Z) (l : list A) :
  sortWith compare l ≡ₚ l.
Proof.
  induction l as [|x l IH]; simpl; [done|].
  fold (sortWith compare l). by rewrite insertSorted_Permutation, IH.
Qed.

Lemma insertSorted_sorted {A : Type} (getTime : string -> Z) (timestamp : A -> string)
    (x : A) (l : list A) :
  StronglySorted (notOlder getTime timestamp) l ->
  StronglySorted (notOlder getTime timestamp)
    (insertSorted (newestFirst getTime timestamp) x l).
Proof.
  induction 1 as [|y l Hl IH Hy]; simpl.
  - repeat constructor.
  - unfold newestFirst at 1. destruct (Z.ltb_spec 0 (getTime (timestamp y) - getTime (timestamp x))).
    + constructor; [done|].
      rewrite (insertSorted_Permutation _ x l). constructor; [|done].
      unfold notOlder. lia.
    + constructor; [by constructor|]. constructor; [unfold notOlder; lia|].
      eapply Forall_impl; [exact Hy|]. unfold notOlder. simpl. intros. lia.
Qed.

Lemma sortWith_sorted {A : Type} (getTime : string -> Z) (timestamp : A -> string)
    (l : list A) :
  StronglySorted (notOlder getTime timestamp) (sortWith (newestFirst getTime timestamp) l).
Proof.
  induction l as [|x l IH]; simpl; [constructor|]. by apply insertSorted_sorted.
Qed.

(** The sort is stable: entries of the same time keep their order. *)
Lemma sortWith_stable {A : Type} (getTime : string -> Z) (timestamp : A -> string)
    (t : Z) (l : list A) :
  filter (fun a => getTime (timestamp a) = t) (sortWith (newestFirst getTime timestamp) l)
  = filter (fun a => getTime (timestamp a) = t) l.
Proof.
  induction l as [|x l IH]; [done|]. simpl. fold (sortWith (newestFirst getTime timestamp) l).
  rewrite filter_cons, <- IH.
  generalize (sortWith (newestFirst getTime timestamp) l). clear IH. intros k.
  induction k as [|y k IHk]; simpl; [by rewrite filter_cons|].
  unfold newestFirst at 1.
  destruct (Z.ltb_spec 0 (getTime (timestamp y) - getTime (timestamp x))) as [Hlt|Hge];
    [|by rewrite (filter_cons _ x)].
  rewrite !(filter_cons _ y), IHk.
  destruct (decide (getTime (timestamp y) = t)), (decide (getTime (timestamp x) = t));
    try done. lia.
Qed.

(** X16: for a search term and texts in ASCII, a prompt entry is listed
    by the history search exactly when it is in the history and its text
    holds the search term up to the case of the letters; likewise a
    session by the asset search, on its script. *)
Theorem search_is_case_insensitive (getTime : string -> Z) (history : list PromptEntry)
    (stored : list Session) (searchTerm : string) :
  isAscii searchTerm = true ->
  (forall p, isAscii (entry_text p) = true ->
     p ∈ filteredHistory getTime history searchTerm
     <-> p ∈ history /\ occursIgnoringCase searchTerm (entry_text p))
  /\ (forall s, isAscii (session_script s) = true ->
        s ∈ filteredSessions getTime stored searchTerm
        <-> s ∈ stored /\ occursIgnoringCase searchTerm (session_script s)).
Proof.
  intros _. split; intros x _.
  - unfold filteredHistory. rewrite sortWith_Permutation, list_elem_of_filter.
    rewrite <- matchesSearch_iff, Is_true_true. tauto.
  - unfold filteredSessions. rewrite sortWith_Permutation, list_elem_of_filter.
    rewrite <- matchesSearch_iff, Is_true_true. tauto.
Qed.

Lemma search_is_case_insensitive_witness :
  let p := mkPromptEntry "c-0" "the CASTLE gate" "t" in
  p ∈ filteredHistory (fun _ => 0%Z) [mkPromptEntry "b-0" "a dragon" "t"; p] "Castle"
  <-> p ∈ [mkPromptEntry "b-0" "a dragon" "t"; p]
      /\ occursIgnoringCase "Castle" (entry_text p).
Proof.
  cbn zeta.
  destruct (search_is_case_insensitive (fun _ => 0%Z)
              [mkPromptEntry "b-0" "a dragon" "t";
               mkPromptEntry "c-0" "the CASTLE gate" "t"] [] "Castle") as [H _];
    [reflexivity|].
  apply (H (mkPromptEntry "c-0" "the CASTLE gate" "t")). reflexivity.
Defined.

Example search_finds_other_case :
  occursIgnoringCase "Castle" "the CASTLE gate"
  /\ map entry_id (filteredHistory (fun _ => 0%Z)
                     [mkPromptEntry "b-0" "a dragon" "t";
                      mkPromptEntry "c-0" "the CASTLE gate" "t"] "Castle") = ["c-0"].
Proof.
  split; [|reflexivity]. by exists "the ", "CASTLE", " gate".
Qed.

(** X17: the history search lists its entries newest first, each matching
    entry once (the result is a rearrangement of the matching entries),
    and entries of the same time in the order of the history. *)
Theorem history_search_newest_first (getTime : string -> Z) (history : list PromptEntry)
    (searchTerm : string) :
  let found := filteredHistory getTime history searchTerm in
  let matching := filter (fun p => matchesSearch searchTerm (entry_text p)) history in
  StronglySorted (notOlder getTime entry_timestamp) found
  /\ found ≡ₚ matching
  /\ forall t, filter (fun p => getTime (entry_timestamp p) = t) found
               = filter (fun p => getTime (entry_timestamp p) = t) matching.
Proof.
  cbn zeta. unfold filteredHistory. split_and!.
  - apply sortWith_sorted.
  - apply sortWith_Permutation.
  - intros t. apply sortWith_stable.
Qed.

(** X18: the asset search lists the matching sessions newest first, each
    once, sessions of the same time in store order. *)
Theorem asset_search_newest_first (getTime : string -> Z) (stored : list Session)
    (searchTerm : string) :
  let found := filteredSessions getTime stored searchTerm in
  let matching := filter (fun s => matchesSearch searchTerm (session_script s)) stored in
  StronglySorted (notOlder getTime session_timestamp) found
  /\ found ≡ₚ matching
  /\ forall t, filter (fun s => getTime (session_timestamp s) = t) found
               = filter (fun s => getTime (session_timestamp s) = t) matching.
Proof.
  cbn zeta. unfold filteredSessions. split_and!.
  - apply sortWith_sorted.
  - apply sortWith_Permutation.
  - intros t. apply sortWith_stable.
Qed.

Lemma filter_true {A : Type} (P : A -> Prop) `{forall x, Decision (P x)} (l : list A) :
  (forall x, P x) -> filter P l = l.
Proof.
  intros HP. induction l as [|x l IH]; [done|]. by rewrite filter_cons_True, IH.
Qed.

(** X19: with an empty search term nothing is filtered out: the history
    view lists every entry, the asset view every session. *)
Theorem empty_search_lists_everything (getTime : string -> Z) (history : list PromptEntry)
    (stored : list Session) :
  filteredHistory getTime history EmptyString ≡ₚ history
  /\ filteredSessions getTime stored EmptyString ≡ₚ stored.
Proof.
  unfold filteredHistory, filteredSessions. rewrite !sortWith_Permutation.
  rewrite !filter_true; [done | |];
    intros x; apply Is_true_true, matchesSearch_empty.
Qed.

(** X20: after a confirmed deletion no session with the deleted id is
    listed by the asset view, whatever the search term, and every other
    session is listed exactly when it was before; a cancelled deletion
    changes nothing. *)
Theorem deleted_session_is_gone (getTime : string -> Z) (stored : list Session)
    (sessionId searchTerm : string) :
  (forall s, s ∈ filteredSessions getTime (handleDeleteSession true sessionId stored) searchTerm
     <-> s ∈ filteredSessions getTime stored searchTerm /\ session_id s <> sessionId)
  /\ handleDeleteSession true sessionId stored `sublist_of` stored
  /\ handleDeleteSession false sessionId stored = stored.
Proof.
  split_and!; [|apply sublist_filter | done].
  intros s. unfold filteredSessions, handleDeleteSession.
  rewrite !sortWith_Permutation, !list_elem_of_filter. tauto.
Qed.

Example history_search_sample :
  let getTime ts := Z.of_nat (String.length ts) in
  let history := [ mkPromptEntry "a-0" "A Castle" "t";
                   mkPromptEntry "b-0" "a dragon" "ttt";
                   mkPromptEntry "c-0" "the CASTLE gate" "tt" ] in
  map entry_id (filteredHistory getTime history "castle") = ["c-0"; "a-0"].
Proof. reflexivity. Qed.

(** ** The browser storage *)

Lemma usage_insert_fresh (m : gmap string string) (key value : string) :
  m !! key = None ->
  usage (<[key := value]> m) = String.length key + String.length value + usage m.
Proof. intros H. unfold usage. rewrite map_fold_insert_L; [done | intros; lia | done]. Qed.

Lemma usage_delete (m : gmap string string) (key value : string) :
  m !! key = Some value ->
  usage m = String.length key + String.length value + usage (delete key m).
Proof.
  intros H. unfold usage. rewrite (map_fold_delete_L _ _ key value m); [done | intros; lia | done].
Qed.

Lemma usage_insert (m : gmap string string) (key value : string) :
  usage (<[key := value]> m)
  = String.length key + String.length value + usage (delete key m).
Proof.
  rewrite <- insert_delete_eq. apply usage_insert_fresh, lookup_delete_eq.
Qed.

Lemma usage_delete_le (m : gmap string string) (key : string) :
  usage (delete key m) <= usage m.
Proof.
  destruct (m !! key) as [value|] eqn:H.
  - rewrite (usage_delete m key value H). lia.
  - by rewrite delete_id.
Qed.

(** X21: reloading after the state was persisted gives that state when
    the write was within the quota, and what a reload gave before when it
    was not (the failed write is dropped); the other keys are untouched.
    [parse] is assumed to read back what [stringify] writes, a non-empty
    text. *)
Theorem reload_after_persist {T : Type} (stringify : T -> string)
    (parse : string -> option T) (key : string) (defaultValue state : T)
    (st : LocalStorage) :
  parse (stringify state) = Some state ->
  truthy (stringify state) = true ->
  initialState parse key defaultValue (persistState stringify key state st)
  = (if decide (usage (<[key := stringify state]> (items st)) <= quota st)
     then state else initialState parse key defaultValue st)
  /\ forall key', key' <> key ->
       getItem key' (persistState stringify key state st) = getItem key' st.
Proof.
  intros Hparse Htruthy. unfold persistState, setItem, initialState, getItem.
  case_decide; simpl.
  - rewrite lookup_insert_eq, Htruthy, Hparse. split; [done|].
    intros key' Hne. by rewrite lookup_insert_ne.
  - done.
Qed.

Lemma reload_after_persist_witness :
  initialState sampleParse "zarrar-style" "" 
    (persistState sampleStringify "zarrar-style" "anime" sampleStorage) = "anime"
  /\ initialState sampleParse "zarrar-script" ""
       (persistState sampleStringify "zarrar-script"
          "A very long script that will not fit into the quota of this storage"
          sampleStorage) = "Once".
Proof.
  split.
  - destruct (reload_after_persist sampleStringify sampleParse "zarrar-style" "" "anime"
                sampleStorage) as [H _]; [reflexivity | reflexivity |]. exact H.
  - destruct (reload_after_persist sampleStringify sampleParse "zarrar-script" ""
                "A very long script that will not fit into the quota of this storage"
                sampleStorage) as [H _]; [reflexivity | reflexivity |]. exact H.
Defined.

(** X22: the dry run never changes the storage, whether it succeeds or
    throws (no check key being left from before), and what it throws is
    always a quota error. *)
Theorem dry_run_leaves_storage (stringify : list Session -> string) (st : LocalStorage)
    (sessionsToSave : list Session) :
  getItem "zarrar-sessions-check" st = None ->
  snd (dryRun stringify st sessionsToSave) = st
  /\ forall e, fst (dryRun stringify st sessionsToSave) = Some e ->
       isQuotaExceeded e = true.
Proof.
  unfold getItem, dryRun, setItem. intros Hfree. case_decide; simpl.
  - split; [|done]. unfold removeItem. simpl. rewrite delete_insert_id by done.
    by destruct st.
  - split; [done|]. by intros e [= <-].
Qed.

Lemma dry_run_leaves_storage_witness :
  snd (dryRun sampleSessionsStringify sampleStorage [sessionA; sessionB]) = sampleStorage.
Proof.
  apply (dry_run_leaves_storage sampleSessionsStringify sampleStorage [sessionA; sessionB]).
  reflexivity.
Defined.

(** X23: a list of sessions that passed the dry run is safe to store:
    writing it under the key of the sessions does not exceed the quota,
    and it is what is read from that key afterwards. *)
Theorem dry_run_guarantees_save (stringify : list Session -> string) (st : LocalStorage)
    (sessionsToSave : list Session) :
  getItem "zarrar-sessions-check" st = None ->
  storageProbe stringify st sessionsToSave = None ->
  exists st', setItem "zarrar-sessions" (stringify sessionsToSave) st = Resolved st'
    /\ getItem "zarrar-sessions" st' = Some (stringify sessionsToSave)
    /\ persistState stringify "zarrar-sessions" sessionsToSave st = st'.
Proof.
  unfold getItem, storageProbe, dryRun, persistState, setItem. intros Hfree.
  case_decide as Hfits; [|done]. intros _.
  rewrite usage_insert_fresh in Hfits by done.
  pose proof (usage_insert (items st) "zarrar-sessions" (stringify sessionsToSave)) as Hu.
  pose proof (usage_delete_le (items st) "zarrar-sessions") as Hd.
  simpl String.length in *.
  rewrite decide_True by lia.
  eexists. split_and!; [done | apply lookup_insert_eq | done].
Qed.

Lemma dry_run_guarantees_save_witness :
  exists st',
    setItem "zarrar-sessions" (sampleSessionsStringify [sessionA; sessionB]) sampleStorage
    = Resolved st'
    /\ getItem "zarrar-sessions" st' = Some "A;B;.".
Proof.
  destruct (dry_run_guarantees_save sampleSessionsStringify sampleStorage [sessionA; sessionB])
    as (st' & Hset & Hget & _); [reflexivity | reflexivity |].
  exists st'. split; [exact Hset | exact Hget].
Defined.

Lemma saveLoop_None_quota (probe : Probe) (l : list Session) (x : Session) :
  (forall l' e, probe l' = Some e -> isQuotaExceeded e = true) ->
  saveLoop probe (l ++ [x]) = None ->
  is_Some (probe [x]).
Proof.
  intros Hquota. induction l as [|y l IH]; intros H.
  - simpl in H. destruct (probe [x]); [by eexists | done].
  - cbn [app saveLoop] in H. destruct (probe (y :: l ++ [x])) as [e|] eqn:He; [|done].
    rewrite (Hquota _ _ He) in H.
    rewrite bool_decide_eq_true_2 in H by (simpl; rewrite length_app; simpl; lia).
    by apply IH.
Qed.

(** X24: with the browser storage as the probe, the save is given up only
    when the new session alone does not pass the dry run: every older
    session has been dropped from the candidate before "Storage is full"
    is reported. *)
Theorem storage_full_only_if_new_session_too_big (stringify : list Session -> string)
    (st : LocalStorage) (newSession : Session) (app : App) :
  appendFails (storageProbe stringify st) newSession app ->
  exists e, storageProbe stringify st [newSession] = Some e /\ isQuotaExceeded e = true.
Proof.
  intros Hfail. unfold appendFails in Hfail.
  assert (forall l' e, storageProbe stringify st l' = Some e -> isQuotaExceeded e = true)
    as Hquota.
  { intros l' e. unfold storageProbe, dryRun, setItem. case_decide; [done|].
    by intros [= <-]. }
  destruct (saveLoop_None_quota _ _ _ Hquota Hfail) as [e He].
  exists e. split; [done | by eapply Hquota].
Qed.

Lemma storage_full_only_if_new_session_too_big_witness :
  exists e,
    storageProbe sampleSessionsStringify (mkStorage ∅ 10) [sessionC] = Some e
    /\ isQuotaExceeded e = true.
Proof.
  apply (storage_full_only_if_new_session_too_big sampleSessionsStringify (mkStorage ∅ 10)
           sessionC sampleApp).
  reflexivity.
Defined.

(** ** More on the prompt image map *)

Lemma recordScene_foldl_truthy (text : string) (l : list Scene) :
  forall m : gmap string string,
  foldl recordScene m l !! text
  = match m !! text with
    | Some image => Some image
    | None => firstTruthyImage text l
    end.
Proof.
  induction l as [|s l IH]; intros m.
  - simpl. by destruct (m !! text).
  - simpl. rewrite IH. unfold firstTruthyImage. simpl.
    unfold recordScene. destruct (scene_image s) as [image|] eqn:Himg; simpl.
    + destruct (truthy image) eqn:Ht; simpl.
      * destruct (m !! scene_prompt s) as [old|] eqn:Hold; simpl.
        -- destruct (decide (scene_prompt s = text)) as [<-|Hp].
           ++ by rewrite Hold.
           ++ by rewrite (bool_decide_eq_false_2 _ Hp).
        -- destruct (decide (scene_prompt s = text)) as [<-|Hp].
           ++ by rewrite lookup_insert_eq, Hold, bool_decide_eq_true_2.
           ++ rewrite lookup_insert_ne by done.
              by rewrite (bool_decide_eq_false_2 _ Hp).
      * by rewrite andb_false_r.
    + by rewrite andb_false_r.
Qed.

(** X25: for every store, [imageFor text] is the image of the first
    scene, in store order, whose prompt is [text] and whose image is
    neither null nor empty; [None] when there is none. *)
Theorem imageFor_first_truthy (stored : list Session) (text : string) :
  imageFor stored text = firstTruthyImage text (scenesInStoreOrder stored).
Proof.
  unfold imageFor, promptImageMap.
  by rewrite promptImageMap_flat, recordScene_foldl_truthy, lookup_empty.
Qed.

(** X26: first write wins over time: once a prompt has an image, sessions
    added to the end of the store do not change it. *)
Theorem imageFor_stable_under_append (stored more : list Session) (text image : string) :
  imageFor stored text = Some image ->
  imageFor (stored ++ more) text = Some image.
Proof.
  unfold imageFor, promptImageMap. intros H.
  rewrite foldl_app, promptImageMap_flat, recordScene_foldl_truthy.
  by rewrite H.
Qed.

Lemma imageFor_stable_under_append_witness :
  imageFor ([sessionA] ++ [sessionB; sessionC]) "a castle"
  = Some "data:image/jpeg;base64,AAAA".
Proof. apply imageFor_stable_under_append. reflexivity. Defined.

(** ** More on the assembly *)

(** X27: a run of the pipeline never removes or reorders what is stored:
    the prompt history before the run is an initial part of the history
    after it, and the sessions after it are the sessions before it, or
    these without some of the oldest and with one new session at the end. *)
Theorem runPipeline_keeps_order (svc : Services) (probe : Probe) (apiKey : option string)
    (script style : string) (referenceImage : option File) (app : App) :
  let app' := runPipeline svc probe apiKey script style referenceImage app in
  promptHistory app `prefix_of` promptHistory app'
  /\ (sessions app' = sessions app
      \/ exists k newSession, k <= length (sessions app)
           /\ sessions app' = drop k (sessions app) ++ [newSession]).
Proof.
  cbn zeta. unfold runPipeline.
  destruct (res_session _) as [session|]; [|by split; [|left]].
  unfold handleGenerationComplete. simpl.
  destruct (saveLoop probe _) as [l'|] eqn:Hl; simpl.
  - split; [by eexists|]. right.
    apply (append_success_shape probe session app) in Hl as (k & Hk & -> & _).
    by exists k, session.
  - split; [by eexists | by left].
Qed.

Lemma newPrompts_ids_distinct (newSession : Session) :
  NoDup (map scene_id (session_scenes newSession)) ->
  NoDup (map entry_id (newPrompts newSession)).
Proof.
  intros Hnd. unfold newPrompts.
  rewrite <- (list_fmap_compose _ entry_id). 
  apply NoDup_fmap_2_strong.
  - intros s1 s2 [_ H1]%list_elem_of_filter [_ H2]%list_elem_of_filter Heq. simpl in Heq.
    apply append_inv_head in Heq. apply (append_inv_head "-") in Heq.
    apply (inj pretty) in Heq.
    apply list_elem_of_lookup in H1 as [i1 H1]. apply list_elem_of_lookup in H2 as [i2 H2].
    assert (i1 = i2) as ->; [|congruence].
    eapply NoDup_lookup; [exact Hnd | |];
      rewrite list_lookup_fmap; [by rewrite H1 | by rewrite H2, Heq].
  - apply NoDup_filter. eapply NoDup_fmap_1. exact Hnd.
Qed.

(** X28: the prompt entries derived from the session a run hands over
    have distinct ids, as do the scenes of that session. *)
Theorem session_entries_distinct (svc : Services) (apiKey : option string)
    (script style : string) (referenceImage : option File) (ui : Ui)
    (cs : string) (prompts : list string) (session : Session) :
  reachesLoop svc apiKey script style referenceImage cs prompts ->
  res_session (generateImages svc apiKey script style referenceImage ui) = Some session ->
  NoDup (map scene_id (session_scenes session))
  /\ NoDup (map entry_id (newPrompts session)).
Proof.
  intros Hreach Hsess.
  destruct (run_summary svc apiKey script style referenceImage ui cs prompts Hreach)
    as (_ & _ & Hs & _).
  rewrite Hs in Hsess. destruct (existsb _ _); [|done]. injection Hsess as <-.
  assert (NoDup (map scene_id (session_scenes
            (mkSession (now svc 0) (now svc 1) script
               (mapFrom (settled svc cs) 0
                  (take (answeredPrefix svc cs 0 prompts) prompts)))))) as Hnd.
  { simpl. rewrite (mapFrom_fmap_index scene_id (settled svc cs))
      by (intros; apply settled_id_prompt). apply NoDup_seq. }
  split; [done | by apply newPrompts_ids_distinct].
Qed.

Lemma session_entries_distinct_witness :
  exists session,
    res_session sampleRun = Some session
    /\ NoDup (map entry_id (newPrompts session)).
Proof.
  exists (mkSession "2024-01-01T00:00:00.000Z" "2024-01-01T00:00:00.001Z"
            "Once upon a time"
            [mkScene 0 "a castle" (Some "data:image/jpeg;base64,AAAA") false None]).
  split; [reflexivity|].
  apply (session_entries_distinct sampleServices sampleKey "Once upon a time"
           " watercolor " None emptyUi "watercolor" samplePrompts _ sample_reachesLoop).
  reflexivity.
Defined.

(** ** The dashboard *)

Lemma recentSessions_length (l : list Session) :
  length (recentSessions l) = length l `min` 3.
Proof. unfold recentSessions. rewrite length_reverse, length_drop. lia. Qed.

(** X29: the dashboard shows at most three sessions, the most recently
    stored first; after a save that succeeded the session just saved
    heads the list. *)
Theorem recent_sessions_newest_first (probe : Probe) (newSession : Session) (app : App) :
  ~ appendFails probe newSession app ->
  let app' := handleGenerationComplete probe newSession app in
  head (recentSessions (sessions app')) = Some newSession
  /\ length (recentSessions (sessions app')) = length (sessions app') `min` 3
  /\ reverse (recentSessions (sessions app')) `suffix_of` sessions app'.
Proof.
  intros Hok app'. unfold appendFails in Hok. unfold app', handleGenerationComplete.
  destruct (saveLoop probe _) as [l'|] eqn:Hl; [|done]. simpl.
  apply (append_success_shape probe newSession app) in Hl as (k & _ & -> & _).
  split_and!.
  - unfold recentSessions.
    set (l := drop k (sessions app) ++ [newSession]).
    assert (drop (length l - 3) l = drop (length l - 3) (drop k (sessions app)) ++ [newSession])
      as ->.
    { unfold l. rewrite drop_app_le; [done|]. rewrite length_app. simpl. lia. }
    by rewrite reverse_app.
  - apply recentSessions_length.
  - unfold recentSessions. rewrite reverse_involutive. apply suffix_drop.
Qed.

Lemma recent_sessions_newest_first_witness :
  head (recentSessions (sessions (handleGenerationComplete roomForTwo sessionC sampleApp)))
  = Some sessionC.
Proof.
  destruct (recent_sessions_newest_first roomForTwo sessionC sampleApp) as (H & _).
  - unfold appendFails. discriminate.
  - exact H.
Defined.

Lemma totalImages_foldl (l : list Session) (acc : nat) :
  foldl (fun acc s =>
           acc + length (filter (fun scene => truthy_opt (scene_image scene))
                           (session_scenes s))) acc l
  = acc + length (filter (fun scene => truthy_opt (scene_image scene))
                    (scenesInStoreOrder l)).
Proof.
  revert acc. unfold scenesInStoreOrder.
  induction l as [|s l IH]; intros acc; simpl; [lia|].
  rewrite IH, filter_app, length_app. lia.
Qed.

(** X30: "Images Generated" on the dashboard is the number of stored
    scenes that hold an image, over all sessions, and deleting a session
    never increases it. *)
Theorem total_images_counts_stored_images (stored : list Session) :
  totalImages stored
  = length (filter (fun scene => truthy_opt (scene_image scene)) (scenesInStoreOrder stored))
  /\ forall confirmed sessionId,
       totalImages (handleDeleteSession confirmed sessionId stored) <= totalImages stored.
Proof.
  split; [apply totalImages_foldl|].
  intros confirmed sessionId. unfold totalImages. rewrite !totalImages_foldl. simpl.
  unfold handleDeleteSession. destruct confirmed; [|done].
  unfold scenesInStoreOrder. induction stored as [|s l IH]; [done|].
  rewrite filter_cons. destruct (decide (session_id s <> sessionId)); simpl;
    rewrite !filter_app, !length_app; lia.
Qed.
